(** * Velox vector readers and complex view types

    A shallow embedding of [velox/expression/VectorReaders.h] and
    [velox/expression/ComplexViewTypes.h]: the readers that navigate decoded
    columnar storage for scalar, map, array, row, variadic and generic
    arguments, the two-phase null protocol they implement
    ([setChildrenMayHaveNulls] followed by [containsNull] /
    [mayHaveNullsRecursive]), and the lazy views, accessors and iterators the
    readers hand out.

    Conventions.
    - [vector_size_t] (a signed 32-bit integer) is read as [Z].  Signed
      overflow is undefined in C++, so arithmetic on indices is the
      arithmetic of [Z]; the one conversion the code performs to an unsigned
      type ([size()] returning [size_t]) is written out.
    - The raw buffers [offsets_] and [lengths_] are [const vector_size_t *]:
      they carry no length, and are read as total functions from the
      physical index.
    - [VELOX_DCHECK] and [DCHECK] are taken in the build where they are
      active (a debug build): a failed check ends the call.
      [VELOX_UNSUPPORTED] always throws. *)

From Stdlib Require Import ZArith List String Bool Lia.
Import ListNotations.
Local Open Scope Z_scope.

(* ================================================================== *)
(** ** Outcomes of a call *)

(** A call either returns, stops on a failed debug check, or throws the
    unsupported-operation error.  The message is the one in the source. *)
Inductive Outcome (A : Type) : Type :=
| Returns (a : A)
| DCheckFailed (msg : string)
| Unsupported (msg : string).

Arguments Returns {A} a.
Arguments DCheckFailed {A} msg.
Arguments Unsupported {A} msg.

Definition bind {A B : Type} (c : Outcome A) (k : A -> Outcome B) : Outcome B :=
  match c with
  | Returns a => k a
  | DCheckFailed m => DCheckFailed m
  | Unsupported m => Unsupported m
  end.

Declare Scope outcome_scope.
Delimit Scope outcome_scope with outcome.
Notation "x <- c ;; k" := (bind c (fun x => k))
  (at level 100, c at next level, right associativity) : outcome_scope.
Local Open Scope outcome_scope.

(** C++ [a || b] where both sides may end the call: [b] is evaluated only
    when [a] returned [false]. *)
Definition orElse (a : Outcome bool) (b : Outcome bool) : Outcome bool :=
  x <- a ;; if x then Returns true else b.

(** C++ [a && b] with a plain flag on the left: [b] is evaluated only when
    the flag is [true]. *)
Definition andThen (a : bool) (b : Outcome bool) : Outcome bool :=
  if a then b else Returns false.

(** The loop [for (auto& x : xs) if (f(x)) return true; return false;] and
    the fold [(f(x) || ...)]: both stop at the first [true]. *)
Definition anyOf {A : Type} (f : A -> Outcome bool) : list A -> Outcome bool :=
  fix go (xs : list A) : Outcome bool :=
    match xs with
    | [] => Returns false
    | x :: rest => orElse (f x) (go rest)
    end.

(** The loop [for (auto& x : xs) f(x);] over owned children, each call
    replacing the child by its updated state. *)
Definition forEach {A : Type} (f : A -> Outcome A) : list A -> Outcome (list A) :=
  fix go (xs : list A) : Outcome (list A) :=
    match xs with
    | [] => Returns []
    | x :: rest => x' <- f x ;; rest' <- go rest ;; Returns (x' :: rest')
    end.

(** Modelled from the spec: [VELOX_DCHECK(cond, msg)] and [DCHECK(cond)]
    (the macros are declared outside the modelled files).  Ordering
    violations are "enforced by an assertion, not a recoverable error": a
    failed check ends the call, a passed one does nothing. *)
Definition dcheck (cond : bool) (msg : string) : Outcome unit :=
  if cond then Returns tt else DCheckFailed msg.

(* ================================================================== *)
(** ** The decoded source *)

(** [vector_size_t] is [int32_t] ([velox/vector/TypeAliases.h]). *)
Definition vector_size_t := Z.

(** Modelled from the spec: [DecodedVector] is a collaborator whose header
    lies outside the modelled files.  It "presents a column, regardless of
    its physical encoding, as [isNullAt(logicalIndex) -> bool],
    [valueAt<T>(logicalIndex) -> T], [index(logicalIndex) -> physicalIndex],
    [mayHaveNulls() -> bool]", each fixed for the pass.  The members the
    readers call are the fields of the record, so a theorem about a reader
    holds for whatever the collaborator answers.  Scalar values are 64-bit
    integers, as in the tests. *)
Record DecodedVector : Type := mkDecoded {
  isNullAt : vector_size_t -> bool;
  index : vector_size_t -> vector_size_t;
  valueAt : vector_size_t -> Z;
  mayHaveNulls : bool;
  (** [DecodedVector::mayHaveNullsRecursive()], used by the Row reader. *)
  decodedMayHaveNullsRecursive : bool
}.

(* ================================================================== *)
(** ** What a view needs from a reader *)

(** The views of [ComplexViewTypes.h] are templates over a reader type [T]:
    they use [T::exec_in_t], [reader->isSet(i)], [reader->operator[](i)] and
    [operator==] on [exec_in_t]. *)
Class Reader (T : Type) : Type := {
  exec_in_t : Type;
  isSet : T -> vector_size_t -> bool;
  read : T -> vector_size_t -> exec_in_t;
  exec_eqb : exec_in_t -> exec_in_t -> bool
}.

(** The primary template [VectorReader<T>] wraps a decoded source:
    [operator[]] is [valueAt] and [isSet] is [!isNullAt]. *)
#[global] Instance ScalarVectorReader : Reader DecodedVector := {
  exec_in_t := Z;
  isSet := fun d offset => negb (isNullAt d offset);
  read := fun d offset => valueAt d offset;
  exec_eqb := Z.eqb
}.

(** [IndexBasedIterator<T>] asks its element for [index()] and
    [incrementIndex()]. *)
Class Indexed (E : Type) : Type := {
  index_of : E -> vector_size_t;
  increment : E -> E
}.

(* ================================================================== *)
(** ** IndexBasedIterator *)

Module IndexBasedIterator.
Section Iter.
Context {E : Type} `{Indexed E}.

Record t : Type := mk { element_ : E }.

(** [operator!=] and [operator==] compare indices only. *)
Definition neq (lhs rhs : t) : bool :=
  negb (index_of (element_ lhs) =? index_of (element_ rhs)).

Definition eq (lhs rhs : t) : bool :=
  index_of (element_ lhs) =? index_of (element_ rhs).

Definition lt (lhs rhs : t) : bool :=
  index_of (element_ lhs) <? index_of (element_ rhs).

(** [operator*]. *)
Definition deref (it : t) : E := element_ it.

(** Pre-increment: [element_.incrementIndex(); return *this;]. *)
Definition pre_incr (it : t) : t := mk (increment (element_ it)).

(** Post-increment: the old iterator is returned, the new one is the
    state left behind. *)
Definition post_incr (it : t) : t * t := (it, pre_incr it).

(** [for (it = first; it != last; ++it) visit(it.operator*());], collecting what is
    visited.  The loop need not end (nothing stops [first] from lying
    past [last]); [None] is the loop still running when the fuel is
    spent. *)
Fixpoint visit (fuel : nat) (it last : t) : option (list E) :=
  match fuel with
  | O => None
  | S fuel' =>
      if neq it last
      then option_map (cons (deref it)) (visit fuel' (pre_incr it) last)
      else Some []
  end.
End Iter.
Arguments t E : clear implicits.
End IndexBasedIterator.

(* ================================================================== *)
(** ** OptionalVectorValueAccessor *)

Module OptionalVectorValueAccessor.
Section Accessor.
Context {T : Type} `{Reader T}.

Record t : Type := mk { reader_ : T; index_ : vector_size_t }.

Definition has_value (a : t) : bool := isSet (reader_ a) (index_ a).

(** [value()] and [operator*]: [DCHECK(has_value());] and then
    [reader_->operator[](index_)]. *)
Definition value (a : t) : Outcome exec_in_t :=
  _ <- dcheck (has_value a) "has_value()" ;;
  Returns (read (reader_ a) (index_ a)).

(** [operator std::optional<element_t>()]. *)
Definition to_optional (a : t) : Outcome (option exec_in_t) :=
  if negb (has_value a) then Returns None
  else v <- value a ;; Returns (Some v).

(** [operator==(const OptionalVectorValueAccessor& other)]. *)
Definition eq (self other : t) : Outcome bool :=
  if negb (Bool.eqb (has_value other) (has_value self)) then Returns false
  else if has_value self then
    x <- value self ;; y <- value other ;; Returns (exec_eqb x y)
  else Returns true.

Definition neq (self other : t) : Outcome bool :=
  b <- eq self other ;; Returns (negb b).

Definition incrementIndex (a : t) : t := mk (reader_ a) (index_ a + 1).

Definition index (a : t) : vector_size_t := index_ a.

#[global] Instance indexed : Indexed t := {
  index_of := index;
  increment := incrementIndex
}.

(** *** Comparison with [std::optional<U>]

    The free operators are enabled for every [U] from which [exec_in_t]
    is trivially constructible; [lhs.value() == rhs.value()] is then the
    language's comparison of a [U] with an [exec_in_t]. *)
Section WithOptional.
Context {U : Type} (mixed_eqb : U -> exec_in_t -> bool).

Definition optional_has_value (o : option U) : bool :=
  match o with Some _ => true | None => false end.

(** [operator==(const std::optional<T>& lhs,
                const OptionalVectorValueAccessor<U>& rhs)]. *)
Definition optional_eq (lhs : option U) (rhs : t) : Outcome bool :=
  if negb (Bool.eqb (optional_has_value lhs) (has_value rhs))
  then Returns false
  else match lhs with
       | Some l => r <- value rhs ;; Returns (mixed_eqb l r)
       | None => Returns true
       end.

(** [operator==(const OptionalVectorValueAccessor<U>& lhs,
                const std::optional<T>& rhs) { return rhs == lhs; }]. *)
Definition eq_optional (lhs : t) (rhs : option U) : Outcome bool :=
  optional_eq rhs lhs.

Definition optional_neq (lhs : option U) (rhs : t) : Outcome bool :=
  b <- optional_eq lhs rhs ;; Returns (negb b).

Definition neq_optional (lhs : t) (rhs : option U) : Outcome bool :=
  b <- eq_optional lhs rhs ;; Returns (negb b).
End WithOptional.
End Accessor.
Arguments t T : clear implicits.
End OptionalVectorValueAccessor.

(* ================================================================== *)
(** ** ArrayView *)

(** [size_t] is 64 bits wide; converting a [vector_size_t] to it reduces
    the value modulo [2^64]. *)
Definition to_size_t (z : Z) : Z := z mod 2 ^ 64.

Module ArrayView.
Section View.
Context {T : Type} `{Reader T}.

Definition Element : Type := OptionalVectorValueAccessor.t T.
Definition Iterator : Type := IndexBasedIterator.t Element.

Record t : Type := mk {
  reader_ : T;
  offset_ : vector_size_t;
  size_ : vector_size_t
}.

Definition begin_ (v : t) : Iterator :=
  IndexBasedIterator.mk
    (OptionalVectorValueAccessor.mk (reader_ v) (offset_ v)).

Definition end_ (v : t) : Iterator :=
  IndexBasedIterator.mk
    (OptionalVectorValueAccessor.mk (reader_ v) (offset_ v + size_ v)).

(** "Returns true if any of the arrayViews in the vector might have null
    element." *)
Definition mayHaveNulls (v : t) : bool := false.

(** [operator[]]. *)
Definition subscript (v : t) (idx : vector_size_t) : Element :=
  OptionalVectorValueAccessor.mk (reader_ v) (idx + offset_ v).

Definition at_ (v : t) (idx : vector_size_t) : Element := subscript v idx.

Definition size (v : t) : Z := to_size_t (size_ v).

(** The three ways of walking a view.
    [for (i = 0; i < view.size(); i++) visit(view[i]);] *)
Fixpoint indexedFrom (v : t) (count : nat) (i : Z) : list Element :=
  match count with
  | O => []
  | S count' => subscript v i :: indexedFrom v count' (i + 1)
  end.

Definition indexedLoop (v : t) : list Element :=
  indexedFrom v (Z.to_nat (size v)) 0.

(** [for (it = view.begin(); it != view.end(); ++it) visit(it.operator*());] *)
Definition iteratorLoop (fuel : nat) (v : t) : option (list Element) :=
  IndexBasedIterator.visit fuel (begin_ v) (end_ v).

(** [for (const auto& e : view) visit(e);] is, by the language's
    definition, the loop over [begin()] and [end()] with [!=], [++] and
    [*]. *)
Definition rangeForLoop (fuel : nat) (v : t) : option (list Element) :=
  let b := begin_ v in
  let e := end_ v in
  IndexBasedIterator.visit fuel b e.
End View.
Arguments t T : clear implicits.
End ArrayView.

(* ================================================================== *)
(** ** MapView *)

Module MapView.
Section View.
Context {K V : Type} `{Reader K} `{Reader V}.

Definition key_element_t : Type := @exec_in_t K _.

(** [LazyKeyAccessor]: a key is never null, so the accessor converts
    straight to the key's value. *)
Record LazyKeyAccessor : Type := mkKey {
  key_reader_ : K;
  key_index_ : vector_size_t
}.

(** [operator key_element_t()]. *)
Definition key_value (a : LazyKeyAccessor) : key_element_t :=
  read (key_reader_ a) (key_index_ a).

Definition key_eq (self other : LazyKeyAccessor) : bool :=
  exec_eqb (key_value other) (key_value self).

Definition key_index (a : LazyKeyAccessor) : vector_size_t := key_index_ a.

Definition key_incrementIndex (a : LazyKeyAccessor) : LazyKeyAccessor :=
  mkKey (key_reader_ a) (key_index_ a + 1).

Record Element : Type := mkElement {
  first : LazyKeyAccessor;
  second : OptionalVectorValueAccessor.t V;
  index_ : vector_size_t
}.

(** The constructor [Element(keyReader, valueReader, index)]. *)
Definition newElement (keyReader : K) (valueReader : V)
    (idx : vector_size_t) : Element :=
  mkElement (mkKey keyReader idx)
            (OptionalVectorValueAccessor.mk valueReader idx)
            idx.

(** [first == other.first && second == other.second]. *)
Definition element_eq (self other : Element) : Outcome bool :=
  andThen (key_eq (first self) (first other))
          (OptionalVectorValueAccessor.eq (second self) (second other)).

(** [index_++; first.incrementIndex(); second.incrementIndex();]. *)
Definition incrementIndex (e : Element) : Element :=
  mkElement (key_incrementIndex (first e))
            (OptionalVectorValueAccessor.incrementIndex (second e))
            (index_ e + 1).

Definition index (e : Element) : vector_size_t := index_ e.

#[global] Instance indexed : Indexed Element := {
  index_of := index;
  increment := incrementIndex
}.

Definition Iterator : Type := IndexBasedIterator.t Element.

Record t : Type := mk {
  keyReader_ : K;
  valueReader_ : V;
  offset_ : vector_size_t;
  size_ : vector_size_t
}.

Definition begin_ (v : t) : Iterator :=
  IndexBasedIterator.mk (newElement (keyReader_ v) (valueReader_ v) (0 + offset_ v)).

Definition end_ (v : t) : Iterator :=
  IndexBasedIterator.mk
    (newElement (keyReader_ v) (valueReader_ v) (size_ v + offset_ v)).

(** [operator[]]. *)
Definition subscript (v : t) (idx : vector_size_t) : Element :=
  newElement (keyReader_ v) (valueReader_ v) (idx + offset_ v).

Definition size (v : t) : Z := to_size_t (size_ v).

(** The loops of [MapViewTest]:
    [for (int j = 0; j < mapView.size(); j++) visit(mapView[j]);] *)
Fixpoint indexedFrom (v : t) (count : nat) (i : Z) : list Element :=
  match count with
  | O => []
  | S count' => subscript v i :: indexedFrom v count' (i + 1)
  end.

Definition indexedLoop (v : t) : list Element :=
  indexedFrom v (Z.to_nat (size v)) 0.

(** [for (auto it = mapView.begin(); it != mapView.end(); ++it)]. *)
Definition iteratorLoop (fuel : nat) (v : t) : option (list Element) :=
  IndexBasedIterator.visit fuel (begin_ v) (end_ v).

(** [for (const auto& entry : mapView)]. *)
Definition rangeForLoop (fuel : nat) (v : t) : option (list Element) :=
  let b := begin_ v in
  let e := end_ v in
  IndexBasedIterator.visit fuel b e.
End View.
Arguments t K V : clear implicits.
End MapView.

(* ================================================================== *)
(** ** The reader hierarchy *)

(** One constructor per specialisation of [VectorReader<T>] that is built
    from a [const DecodedVector*].  Child readers are owned by value; the
    memo slots are the [std::optional<bool>] members. *)
#[local] Unset Elimination Schemes.
Inductive VectorReader : Type :=
| ScalarReader (decoded_ : DecodedVector)
| MapReader (decoded_ : DecodedVector)
            (offsets_ lengths_ : vector_size_t -> vector_size_t)
            (keyReader_ valReader_ : VectorReader)
            (keysMayHaveNulls_ valuesMayHaveNulls_ : option bool)
| ArrayReader (decoded_ : DecodedVector)
              (offsets_ lengths_ : vector_size_t -> vector_size_t)
              (childReader_ : VectorReader)
              (valuesMayHaveNulls_ : option bool)
| RowReader (decoded_ : DecodedVector) (childReaders_ : list VectorReader)
| GenericReader (decoded_ : DecodedVector).
#[local] Set Elimination Schemes.

(** Induction over reader trees, with the fields of a Row reader covered
    by [Forall]. *)
Section VectorReader_induction.
Variable P : VectorReader -> Prop.
Hypothesis HScalar : forall d, P (ScalarReader d).
Hypothesis HMap : forall d offsets lengths k v km vm,
  P k -> P v -> P (MapReader d offsets lengths k v km vm).
Hypothesis HArray : forall d offsets lengths c vm,
  P c -> P (ArrayReader d offsets lengths c vm).
Hypothesis HRow : forall d cs, Forall P cs -> P (RowReader d cs).
Hypothesis HGeneric : forall d, P (GenericReader d).

Fixpoint VectorReader_ind (r : VectorReader) : P r :=
  match r with
  | ScalarReader d => HScalar d
  | MapReader d offsets lengths k v km vm =>
      HMap d offsets lengths k v km vm (VectorReader_ind k) (VectorReader_ind v)
  | ArrayReader d offsets lengths c vm =>
      HArray d offsets lengths c vm (VectorReader_ind c)
  | RowReader d cs =>
      HRow d cs
        ((fix children (l : list VectorReader) : Forall P l :=
            match l with
            | [] => Forall_nil P
            | c :: rest => Forall_cons c (VectorReader_ind c) (children rest)
            end) cs)
  | GenericReader d => HGeneric d
  end.
End VectorReader_induction.

(** [VectorReader<Variadic<T>>] is built from the decoded arguments and a
    start position, and builds each child with the [DecodedVector*]
    constructor: it can only sit at the root, over readers of the other
    shapes. *)
Record VariadicReader : Type := mkVariadic {
  childReaders_ : list VectorReader
}.

(** The constructors leave every [std::optional<bool>] member empty. *)
Definition newMapReader (d : DecodedVector)
    (offsets lengths : vector_size_t -> vector_size_t)
    (keys vals : VectorReader) : VectorReader :=
  MapReader d offsets lengths keys vals None None.

Definition newArrayReader (d : DecodedVector)
    (offsets lengths : vector_size_t -> vector_size_t)
    (child : VectorReader) : VectorReader :=
  ArrayReader d offsets lengths child None.

Definition decodedOf (r : VectorReader) : DecodedVector :=
  match r with
  | ScalarReader d => d
  | MapReader d _ _ _ _ _ _ => d
  | ArrayReader d _ _ _ _ => d
  | RowReader d _ => d
  | GenericReader d => d
  end.

(** [isSet(offset)]: the same body, [!decoded_.isNullAt(offset)], in every
    reader built from a decoded source. *)
Definition readerIsSet (r : VectorReader) (offset : vector_size_t) : bool :=
  negb (isNullAt (decodedOf r) offset).

Definition has_value_opt (o : option bool) : bool :=
  match o with Some _ => true | None => false end.

(** [*o] after the check that [o] holds a value. *)
Definition deref (o : option bool) : bool :=
  match o with Some b => b | None => false end.

Definition msgContainsNull : string :=
  "setChildrenMayHaveNulls() should be called before containsNull()".
Definition msgMayHaveNullsRecursive : string :=
  "setChildrenMayHaveNulls() should be called before mayHaveNullsRecursive()".
Definition msgGeneric : string :=
  "Calling callNullFree with Generic arguments is not yet supported.".

(** The range loop shared by every [containsNull(startIndex, endIndex)]:
    [for (index = startIndex; index < endIndex; ++index)
       if (containsNull(index)) return true;
     return false;]
    It runs [endIndex - startIndex] times when that is positive, and not at
    all otherwise. *)
Fixpoint containsNullFrom (cn : vector_size_t -> Outcome bool)
    (count : nat) (index : vector_size_t) : Outcome bool :=
  match count with
  | O => Returns false
  | S count' =>
      b <- cn index ;;
      if b then Returns true else containsNullFrom cn count' (index + 1)
  end.

Definition containsNullLoop (cn : vector_size_t -> Outcome bool)
    (startIndex endIndex : vector_size_t) : Outcome bool :=
  containsNullFrom cn (Z.to_nat (endIndex - startIndex)) startIndex.

(** [reader.containsNull(startIndex, endIndex)], given the reader's own
    [containsNull(index)] as [cn]: the range loop in the scalar, Map, Array
    and Row readers; the Generic reader throws before looking at its
    arguments. *)
Definition containsNullRangeOf (r : VectorReader)
    (cn : vector_size_t -> Outcome bool)
    (startIndex endIndex : vector_size_t) : Outcome bool :=
  match r with
  | GenericReader _ => Unsupported msgGeneric
  | _ => containsNullLoop cn startIndex endIndex
  end.

(** [containsNull(index)]. *)
Fixpoint containsNull (r : VectorReader) (idx : vector_size_t) : Outcome bool :=
  match r with
  | ScalarReader d => Returns (isNullAt d idx)
  | MapReader d offsets lengths keyReader valReader keysMHN valuesMHN =>
      _ <- dcheck (has_value_opt keysMHN && has_value_opt valuesMHN)
             msgContainsNull ;;
      let decodedIndex := index d idx in
      orElse (Returns (isNullAt d idx))
        (orElse
           (andThen (deref keysMHN)
              (containsNullRangeOf keyReader (containsNull keyReader)
                 (offsets decodedIndex)
                 (offsets decodedIndex + lengths decodedIndex)))
           (andThen (deref valuesMHN)
              (containsNullRangeOf valReader (containsNull valReader)
                 (offsets decodedIndex)
                 (offsets decodedIndex + lengths decodedIndex))))
  | ArrayReader d offsets lengths childReader valuesMHN =>
      _ <- dcheck (has_value_opt valuesMHN) msgContainsNull ;;
      let decodedIndex := index d idx in
      orElse (Returns (isNullAt d idx))
        (andThen (deref valuesMHN)
           (containsNullRangeOf childReader (containsNull childReader)
              (offsets decodedIndex)
              (offsets decodedIndex + lengths decodedIndex)))
  | RowReader d childReaders =>
      if isNullAt d idx then Returns true
      else
        let decodedIndex := index d idx in
        anyOf (fun reader => containsNull reader decodedIndex) childReaders
  | GenericReader _ => Unsupported msgGeneric
  end.

(** [containsNull(startIndex, endIndex)]. *)
Definition containsNullRange (r : VectorReader)
    (startIndex endIndex : vector_size_t) : Outcome bool :=
  containsNullRangeOf r (containsNull r) startIndex endIndex.

(** [mayHaveNullsRecursive()]. *)
Definition mayHaveNullsRecursive (r : VectorReader) : Outcome bool :=
  match r with
  | ScalarReader d => Returns (mayHaveNulls d)
  | MapReader d _ _ _ _ keysMHN valuesMHN =>
      _ <- dcheck (has_value_opt keysMHN && has_value_opt valuesMHN)
             msgMayHaveNullsRecursive ;;
      Returns (mayHaveNulls d || deref keysMHN || deref valuesMHN)%bool
  | ArrayReader d _ _ _ valuesMHN =>
      _ <- dcheck (has_value_opt valuesMHN) msgMayHaveNullsRecursive ;;
      Returns (mayHaveNulls d || deref valuesMHN)%bool
  | RowReader d _ => Returns (decodedMayHaveNullsRecursive d)
  | GenericReader _ => Unsupported msgGeneric
  end.

(** [setChildrenMayHaveNulls()]: the reader after the call, or the error
    that ended it. *)
Fixpoint setChildrenMayHaveNulls (r : VectorReader) : Outcome VectorReader :=
  match r with
  | ScalarReader d => Returns (ScalarReader d)
  | MapReader d offsets lengths keyReader valReader _ _ =>
      keyReader' <- setChildrenMayHaveNulls keyReader ;;
      valReader' <- setChildrenMayHaveNulls valReader ;;
      k <- mayHaveNullsRecursive keyReader' ;;
      v <- mayHaveNullsRecursive valReader' ;;
      Returns (MapReader d offsets lengths keyReader' valReader' (Some k) (Some v))
  | ArrayReader d offsets lengths childReader _ =>
      childReader' <- setChildrenMayHaveNulls childReader ;;
      v <- mayHaveNullsRecursive childReader' ;;
      Returns (ArrayReader d offsets lengths childReader' (Some v))
  | RowReader d childReaders =>
      childReaders' <- forEach setChildrenMayHaveNulls childReaders ;;
      Returns (RowReader d childReaders')
  | GenericReader _ => Unsupported msgGeneric
  end.

(* ================================================================== *)
(** ** The Variadic reader *)

Module Variadic.

(** "The Variadic itself can never be null, only the values of the
    underlying Types". *)
Definition isSet (r : VariadicReader) (offset : vector_size_t) : bool := true.

Definition containsNull (r : VariadicReader) (idx : vector_size_t)
    : Outcome bool :=
  anyOf (fun childReader => containsNull childReader idx) (childReaders_ r).

Definition containsNullRange (r : VariadicReader)
    (startIndex endIndex : vector_size_t) : Outcome bool :=
  anyOf (fun childReader => containsNullRange childReader startIndex endIndex)
        (childReaders_ r).

Definition mayHaveNullsRecursive (r : VariadicReader) : Outcome bool :=
  anyOf mayHaveNullsRecursive (childReaders_ r).

Definition setChildrenMayHaveNulls (r : VariadicReader)
    : Outcome VariadicReader :=
  childReaders' <- forEach setChildrenMayHaveNulls (childReaders_ r) ;;
  Returns (mkVariadic childReaders').

End Variadic.

(** [operator[]]: what each reader hands out for a row.  Scalars yield the
    value; Map and Array yield a view windowed at
    [(offsets_[index], lengths_[index])] over the child readers; Row and
    Generic yield an accessor positioned at the decoded index. *)
Inductive ExecIn : Type :=
| ScalarValue (v : Z)
| MapViewOf (view : MapView.t VectorReader VectorReader)
| ArrayViewOf (view : ArrayView.t VectorReader)
| RowViewOf (childReaders : list VectorReader) (idx : vector_size_t)
| GenericViewOf (decoded : DecodedVector) (idx : vector_size_t).

Definition subscript (r : VectorReader) (offset : vector_size_t) : ExecIn :=
  match r with
  | ScalarReader d => ScalarValue (valueAt d offset)
  | MapReader d offsets lengths keyReader valReader _ _ =>
      let idx := index d offset in
      MapViewOf (MapView.mk keyReader valReader (offsets idx) (lengths idx))
  | ArrayReader d offsets lengths childReader _ =>
      let idx := index d offset in
      ArrayViewOf (ArrayView.mk childReader (offsets idx) (lengths idx))
  | RowReader d childReaders => RowViewOf childReaders (index d offset)
  | GenericReader d => GenericViewOf d (index d offset)
  end.

(* ================================================================== *)
(** ** The state the setup phase establishes *)

(** Every memo slot in the tree holds a value and no Generic reader occurs
    in it. *)
Fixpoint prepared (r : VectorReader) : bool :=
  match r with
  | ScalarReader _ => true
  | MapReader _ _ _ k v km vm =>
      has_value_opt km && has_value_opt vm && prepared k && prepared v
  | ArrayReader _ _ _ c vm => has_value_opt vm && prepared c
  | RowReader _ cs => forallb prepared cs
  | GenericReader _ => false
  end.

(** The flag the setup phase computes for a subtree, read off the decoded
    sources: a Map or Array reader ORs its own source's [mayHaveNulls()]
    with its children's flags, a Row reader asks its source. *)
Fixpoint sourcesMayHaveNulls (r : VectorReader) : bool :=
  match r with
  | ScalarReader d => mayHaveNulls d
  | MapReader d _ _ k v _ _ =>
      mayHaveNulls d || sourcesMayHaveNulls k || sourcesMayHaveNulls v
  | ArrayReader d _ _ c _ => mayHaveNulls d || sourcesMayHaveNulls c
  | RowReader d _ => decodedMayHaveNullsRecursive d
  | GenericReader _ => false
  end.

(** The memo of a Map or Array reader is still empty. *)
Definition memoUnset (r : VectorReader) : bool :=
  match r with
  | MapReader _ _ _ _ _ km vm => negb (has_value_opt km && has_value_opt vm)
  | ArrayReader _ _ _ _ vm => negb (has_value_opt vm)
  | _ => false
  end.

(** ** What the decoded sources are trusted to report *)

(** A decoded source is trusted to report [mayHaveNulls()] whenever one of
    its rows is null. *)
Definition sourceSound (d : DecodedVector) : Prop :=
  forall i, isNullAt d i = true -> mayHaveNulls d = true.

(** The same trust through a reader tree.  A Row reader's source answers
    [mayHaveNullsRecursive()] for the fields too: when it says [false],
    neither the row column nor any field subtree may have nulls. *)
Fixpoint sourcesSound (r : VectorReader) : Prop :=
  match r with
  | ScalarReader d => sourceSound d
  | MapReader d _ _ k v _ _ => sourceSound d /\ sourcesSound k /\ sourcesSound v
  | ArrayReader d _ _ c _ => sourceSound d /\ sourcesSound c
  | RowReader d cs =>
      sourceSound d /\
      (decodedMayHaveNullsRecursive d = false ->
       mayHaveNulls d = false /\ existsb sourcesMayHaveNulls cs = false) /\
      (fix children (l : list VectorReader) : Prop :=
         match l with
         | [] => True
         | c :: rest => sourcesSound c /\ children rest
         end) cs
  | GenericReader _ => True
  end.

(* ================================================================== *)
(** ** Reference notions *)

(** A Generic reader occurs in the tree. *)
Fixpoint hasGeneric (r : VectorReader) : bool :=
  match r with
  | ScalarReader _ => false
  | MapReader _ _ _ k v _ _ => hasGeneric k || hasGeneric v
  | ArrayReader _ _ _ c _ => hasGeneric c
  | RowReader _ cs => existsb hasGeneric cs
  | GenericReader _ => true
  end.

(** The reader with every memo slot emptied: what the tree is apart from
    the state of the null protocol. *)
Fixpoint eraseMemo (r : VectorReader) : VectorReader :=
  match r with
  | ScalarReader d => ScalarReader d
  | MapReader d offsets lengths k v _ _ =>
      MapReader d offsets lengths (eraseMemo k) (eraseMemo v) None None
  | ArrayReader d offsets lengths c _ =>
      ArrayReader d offsets lengths (eraseMemo c) None
  | RowReader d cs => RowReader d (map eraseMemo cs)
  | GenericReader d => GenericReader d
  end.

(** Some index of [[startIndex, endIndex)] satisfies [f]. *)
Fixpoint existsFrom (f : vector_size_t -> bool) (count : nat)
    (idx : vector_size_t) : bool :=
  match count with
  | O => false
  | S count' => f idx || existsFrom f count' (idx + 1)
  end.

Definition existsInRange (f : vector_size_t -> bool)
    (startIndex endIndex : vector_size_t) : bool :=
  existsFrom f (Z.to_nat (endIndex - startIndex)) startIndex.

(** Whether row [i] is null or holds a null anywhere below it, read off the
    null bits of the decoded sources alone: no memo is consulted.  A Map
    or Array row looks at every position of its window, a Row at every
    field. *)
Fixpoint hasNull (r : VectorReader) (i : vector_size_t) : bool :=
  match r with
  | ScalarReader d => isNullAt d i
  | MapReader d offsets lengths k v _ _ =>
      let idx := index d i in
      isNullAt d i
      || existsInRange (hasNull k) (offsets idx) (offsets idx + lengths idx)
      || existsInRange (hasNull v) (offsets idx) (offsets idx + lengths idx)
  | ArrayReader d offsets lengths c _ =>
      let idx := index d i in
      isNullAt d i
      || existsInRange (hasNull c) (offsets idx) (offsets idx + lengths idx)
  | RowReader d cs =>
      isNullAt d i || existsb (fun c => hasNull c (index d i)) cs
  | GenericReader d => isNullAt d i
  end.

(** [operator==] of [std::optional]: two empty optionals are equal, an
    empty and an engaged one are not, two engaged ones compare their
    values. *)
Definition optional_eqb {A B : Type} (eqb : A -> B -> bool)
    (x : option A) (y : option B) : bool :=
  match x, y with
  | None, None => true
  | Some a, Some b => eqb a b
  | _, _ => false
  end.

(* ================================================================== *)
(** ** Test fixtures *)

Definition isNone {A : Type} (o : option A) : bool :=
  match o with None => true | Some _ => false end.

(** A flat column of nullable 64-bit integers, decoded with the identity
    selection: what [makeFlatVector] followed by [detail::decode] yields.
    The column may have nulls when one of its entries is null. *)
Definition flatDecoded (xs : list (option Z)) : DecodedVector :=
  {| isNullAt := fun i =>
       match nth_error xs (Z.to_nat i) with Some None => true | _ => false end;
     index := fun i => i;
     valueAt := fun i =>
       match nth_error xs (Z.to_nat i) with Some (Some v) => v | _ => 0 end;
     mayHaveNulls := existsb isNone xs;
     decodedMayHaveNullsRecursive := existsb isNone xs |}.

(** Raw offset and size buffers holding the given entries. *)
Definition rawBuffer (xs : list Z) : vector_size_t -> vector_size_t :=
  fun i => nth (Z.to_nat i) xs 0.

(** The map column of [MapViewTest]: rows [map1 = {}],
    [map2 = {1:4, 3:3, 4:null}] and
    [map3 = {10:10, 4:null, 1:4, 10:4, 10:null}], none of them null. *)
Definition testKeys : DecodedVector :=
  flatDecoded [Some 1; Some 3; Some 4; Some 10; Some 4; Some 1; Some 10; Some 10].
Definition testValues : DecodedVector :=
  flatDecoded [Some 4; Some 3; None; Some 10; None; Some 4; Some 4; None].
Definition testMapRows : DecodedVector :=
  flatDecoded [Some 0; Some 0; Some 0].

Definition testMapReader : VectorReader :=
  newMapReader testMapRows (rawBuffer [0; 0; 3]) (rawBuffer [0; 3; 5])
    (ScalarReader testKeys) (ScalarReader testValues).

(** The array column of the benchmark scenario: rows of length 0, 3 and 5
    whose element at position [i] of its row is null unless [i % 5 == 0]. *)
Definition benchElements : DecodedVector :=
  flatDecoded [Some 0; None; None; Some 0; None; None; None; None].
Definition benchArrayRows : DecodedVector := flatDecoded [Some 0; Some 0; Some 0].

Definition benchArrayReader : VectorReader :=
  newArrayReader benchArrayRows (rawBuffer [0; 0; 3]) (rawBuffer [0; 3; 5])
    (ScalarReader benchElements).

(** The keys and the values a map view shows, in iteration order. *)
Definition keysOf (v : MapView.t DecodedVector DecodedVector) : list Z :=
  map (fun k => MapView.key_value
                  (MapView.first (MapView.subscript v (Z.of_nat k))))
      (seq 0 (Z.to_nat (MapView.size v))).

Definition valuesOf (v : MapView.t DecodedVector DecodedVector)
    : list (Outcome (option Z)) :=
  map (fun k => OptionalVectorValueAccessor.to_optional
                  (MapView.second (MapView.subscript v (Z.of_nat k))))
      (seq 0 (Z.to_nat (MapView.size v))).

(** An array column with rows [[]], [[7, 8]] and [[null]]: the first two
    rows hold no null, the third one does. *)
Definition testElements : DecodedVector := flatDecoded [Some 7; Some 8; None].
Definition testArrayRows : DecodedVector := flatDecoded [Some 0; Some 0; Some 0].

Definition testArrayReader : VectorReader :=
  newArrayReader testArrayRows (rawBuffer [0; 0; 2]) (rawBuffer [0; 2; 1])
    (ScalarReader testElements).

(** A row column of three rows, none of them null, with two fields: the
    scalar column [7, 8, null] and the array column above. *)
Definition testRowReader : VectorReader :=
  RowReader (flatDecoded [Some 0; Some 0; Some 0])
    [ScalarReader testElements; testArrayReader].

(** Two trailing arguments of a variadic function: the scalar column
    [7, 8, null] and the key column of the test map. *)
Definition testVariadicReader : VariadicReader :=
  mkVariadic [ScalarReader testElements; ScalarReader testKeys].

Definition afterVariadicSetup (v : VariadicReader) : VariadicReader :=
  match Variadic.setChildrenMayHaveNulls v with
  | Returns v' => v'
  | _ => v
  end.

(** The reader a call leaves behind, for use on the fixtures (where the
    call returns). *)
Definition afterSetup (r : VectorReader) : VectorReader :=
  match setChildrenMayHaveNulls r with
  | Returns r' => r'
  | _ => r
  end.

(* ================================================================== *)
(** * Properties *)

(** ** Outcomes *)

Lemma bind_Returns_inv {A B : Type} (c : Outcome A) (k : A -> Outcome B) (b : B) :
  bind c k = Returns b -> exists a, c = Returns a /\ k a = Returns b.
Proof.
  destruct c as [a | m | m]; simpl; intros E; try discriminate.
  exists a. split; [reflexivity | exact E].
Qed.

Lemma orElse_Returns_true (a b : Outcome bool) :
  orElse a b = Returns true <->
  a = Returns true \/ (a = Returns false /\ b = Returns true).
Proof.
  unfold orElse, bind.
  destruct a as [[|] | m | m]; intuition (try discriminate; auto).
Qed.

Lemma orElse_total (a b : Outcome bool) :
  (exists x, a = Returns x) -> (exists y, b = Returns y) ->
  exists z, orElse a b = Returns z.
Proof.
  intros [x ->] [y ->]. unfold orElse; simpl. destruct x; eauto.
Qed.

Lemma andThen_Returns_true (a : bool) (b : Outcome bool) :
  andThen a b = Returns true <-> a = true /\ b = Returns true.
Proof.
  unfold andThen. destruct a; split; intros E.
  - split; [reflexivity | exact E].
  - apply E.
  - discriminate.
  - destruct E; discriminate.
Qed.

Lemma andThen_total (a : bool) (b : Outcome bool) :
  (a = true -> exists y, b = Returns y) -> exists z, andThen a b = Returns z.
Proof.
  unfold andThen. destruct a; intros Hb; [apply Hb; reflexivity | eauto].
Qed.

Lemma anyOf_total {A : Type} (f : A -> Outcome bool) (xs : list A) :
  Forall (fun x => exists b, f x = Returns b) xs ->
  exists b, anyOf f xs = Returns b.
Proof.
  induction 1 as [| x rest Hx _ IH]; simpl; [eauto |].
  apply orElse_total; assumption.
Qed.

Lemma anyOf_Returns_true {A : Type} (f : A -> Outcome bool) (xs : list A) :
  Forall (fun x => exists b, f x = Returns b) xs ->
  (anyOf f xs = Returns true <-> Exists (fun x => f x = Returns true) xs).
Proof.
  induction 1 as [| x rest [b Hx] _ IH]; simpl.
  - split; [discriminate | intros E; inversion E].
  - rewrite orElse_Returns_true, IH. split.
    + intros [E | [_ E]]; [left | right]; assumption.
    + intros E. inversion E as [? ? E' | ? ? E']; subst; [left; exact E' |].
      destruct b; [left; exact Hx | right; split; assumption].
Qed.

Lemma forEach_Returns_inv {A : Type} (f : A -> Outcome A) (xs ys : list A) :
  forEach f xs = Returns ys -> Forall2 (fun x y => f x = Returns y) xs ys.
Proof.
  revert ys. induction xs as [| x rest IH]; simpl; intros ys E.
  - injection E as <-. constructor.
  - apply bind_Returns_inv in E. destruct E as [x' [Hx E]].
    apply bind_Returns_inv in E. destruct E as [rest' [Hrest E]].
    injection E as <-. constructor; [exact Hx | apply IH; exact Hrest].
Qed.

(** ** The range loop *)

Lemma containsNullFrom_total (cn : vector_size_t -> Outcome bool) (count : nat) :
  forall start,
    (forall j, start <= j < start + Z.of_nat count -> exists b, cn j = Returns b) ->
    exists b, containsNullFrom cn count start = Returns b.
Proof.
  induction count as [| count IH]; intros start Hcn; simpl; [eauto |].
  destruct (Hcn start ltac:(lia)) as [b ->]. simpl.
  destruct b; [eauto |]. apply IH. intros j Hj. apply Hcn. lia.
Qed.

Lemma containsNullFrom_Returns_true (cn : vector_size_t -> Outcome bool) (count : nat) :
  forall start,
    (forall j, start <= j < start + Z.of_nat count -> exists b, cn j = Returns b) ->
    (containsNullFrom cn count start = Returns true <->
     exists j, start <= j < start + Z.of_nat count /\ cn j = Returns true).
Proof.
  induction count as [| count IH]; intros start Hcn; simpl.
  - split; [discriminate | intros [j [Hj _]]; lia].
  - destruct (Hcn start ltac:(lia)) as [b Hb]. rewrite Hb. simpl.
    destruct b.
    + split; [intros _; exists start; split; [lia | exact Hb] | reflexivity].
    + rewrite IH by (intros j Hj; apply Hcn; lia). split.
      * intros [j [Hj E]]. exists j. split; [lia | exact E].
      * intros [j [Hj E]]. exists j. split; [| exact E].
        destruct (Z.eq_dec j start) as [-> | Hne]; [congruence | lia].
Qed.

Lemma containsNullLoop_total (cn : vector_size_t -> Outcome bool) (s e : vector_size_t) :
  (forall j, s <= j < e -> exists b, cn j = Returns b) ->
  exists b, containsNullLoop cn s e = Returns b.
Proof.
  intros Hcn. unfold containsNullLoop. apply containsNullFrom_total.
  intros j Hj. apply Hcn. lia.
Qed.

Lemma containsNullLoop_Returns_true (cn : vector_size_t -> Outcome bool) (s e : vector_size_t) :
  (forall j, s <= j < e -> exists b, cn j = Returns b) ->
  (containsNullLoop cn s e = Returns true <->
   exists j, s <= j < e /\ cn j = Returns true).
Proof.
  intros Hcn. unfold containsNullLoop.
  rewrite containsNullFrom_Returns_true by (intros j Hj; apply Hcn; lia).
  split; intros [j [Hj E]]; exists j; (split; [lia | exact E]).
Qed.

Lemma containsNullLoop_empty (cn : vector_size_t -> Outcome bool) (s e : vector_size_t) :
  e <= s -> containsNullLoop cn s e = Returns false.
Proof.
  intros Hle. unfold containsNullLoop.
  replace (Z.to_nat (e - s)) with O by lia. reflexivity.
Qed.

Lemma containsNull_Map (d : DecodedVector) offsets lengths k v kf vf i :
  containsNull (MapReader d offsets lengths k v (Some kf) (Some vf)) i =
  orElse (Returns (isNullAt d i))
    (orElse
       (andThen kf
          (containsNullRange k (offsets (index d i))
             (offsets (index d i) + lengths (index d i))))
       (andThen vf
          (containsNullRange v (offsets (index d i))
             (offsets (index d i) + lengths (index d i))))).
Proof. reflexivity. Qed.

Lemma containsNull_Array (d : DecodedVector) offsets lengths c vf i :
  containsNull (ArrayReader d offsets lengths c (Some vf)) i =
  orElse (Returns (isNullAt d i))
    (andThen vf
       (containsNullRange c (offsets (index d i))
          (offsets (index d i) + lengths (index d i)))).
Proof. reflexivity. Qed.

Lemma containsNull_Row (d : DecodedVector) cs i :
  containsNull (RowReader d cs) i =
  if isNullAt d i then Returns true
  else anyOf (fun reader => containsNull reader (index d i)) cs.
Proof. reflexivity. Qed.

Lemma containsNullRange_prepared (r : VectorReader) (s e : vector_size_t) :
  prepared r = true ->
  containsNullRange r s e = containsNullLoop (containsNull r) s e.
Proof.
  destruct r; simpl; intros Hp; try discriminate; reflexivity.
Qed.

Lemma containsNullRange_total (r : VectorReader) (s e : vector_size_t) :
  prepared r = true ->
  (forall j, exists b, containsNull r j = Returns b) ->
  exists b, containsNullRange r s e = Returns b.
Proof.
  intros Hp Hcn. rewrite containsNullRange_prepared by exact Hp.
  apply containsNullLoop_total. intros j _. apply Hcn.
Qed.

Lemma containsNullRange_Returns_true (r : VectorReader) (s e : vector_size_t) :
  prepared r = true ->
  (forall j, exists b, containsNull r j = Returns b) ->
  (containsNullRange r s e = Returns true <->
   exists j, s <= j < e /\ containsNull r j = Returns true).
Proof.
  intros Hp Hcn. rewrite containsNullRange_prepared by exact Hp.
  apply containsNullLoop_Returns_true. intros j _. apply Hcn.
Qed.

Lemma setChildrenMayHaveNulls_Map_inv d offsets lengths k v km vm r' :
  setChildrenMayHaveNulls (MapReader d offsets lengths k v km vm) = Returns r' ->
  exists k' v' kf vf,
    setChildrenMayHaveNulls k = Returns k' /\
    setChildrenMayHaveNulls v = Returns v' /\
    mayHaveNullsRecursive k' = Returns kf /\
    mayHaveNullsRecursive v' = Returns vf /\
    r' = MapReader d offsets lengths k' v' (Some kf) (Some vf).
Proof.
  simpl. intros E.
  apply bind_Returns_inv in E. destruct E as [k' [Hk E]].
  apply bind_Returns_inv in E. destruct E as [v' [Hv E]].
  apply bind_Returns_inv in E. destruct E as [kf [Hkf E]].
  apply bind_Returns_inv in E. destruct E as [vf [Hvf E]].
  injection E as <-. exists k', v', kf, vf. auto.
Qed.

Lemma setChildrenMayHaveNulls_Array_inv d offsets lengths c vm r' :
  setChildrenMayHaveNulls (ArrayReader d offsets lengths c vm) = Returns r' ->
  exists c' vf,
    setChildrenMayHaveNulls c = Returns c' /\
    mayHaveNullsRecursive c' = Returns vf /\
    r' = ArrayReader d offsets lengths c' (Some vf).
Proof.
  simpl. intros E.
  apply bind_Returns_inv in E. destruct E as [c' [Hc E]].
  apply bind_Returns_inv in E. destruct E as [vf [Hvf E]].
  injection E as <-. exists c', vf. auto.
Qed.

Lemma setChildrenMayHaveNulls_Row_inv d cs r' :
  setChildrenMayHaveNulls (RowReader d cs) = Returns r' ->
  exists cs',
    Forall2 (fun c c' => setChildrenMayHaveNulls c = Returns c') cs cs' /\
    r' = RowReader d cs'.
Proof.
  simpl. intros E.
  apply bind_Returns_inv in E. destruct E as [cs' [Hcs E]].
  injection E as <-. exists cs'. split; [| reflexivity].
  apply forEach_Returns_inv. exact Hcs.
Qed.

Lemma setChildrenMayHaveNulls_prepared (r : VectorReader) :
  forall r', setChildrenMayHaveNulls r = Returns r' -> prepared r' = true.
Proof.
  induction r as [d | d offsets lengths k v km vm IHk IHv
                  | d offsets lengths c vm IHc | d cs IHcs | d]
    using VectorReader_ind; intros r' E.
  - injection E as <-. reflexivity.
  - apply setChildrenMayHaveNulls_Map_inv in E.
    destruct E as (k' & v' & kf & vf & Hk & Hv & _ & _ & ->).
    simpl. rewrite (IHk _ Hk), (IHv _ Hv). reflexivity.
  - apply setChildrenMayHaveNulls_Array_inv in E.
    destruct E as (c' & vf & Hc & _ & ->).
    simpl. exact (IHc _ Hc).
  - apply setChildrenMayHaveNulls_Row_inv in E.
    destruct E as (cs' & Hcs & ->). simpl.
    induction Hcs as [| c c' rest rest' Hc _ IH]; [reflexivity |].
    inversion IHcs as [| ? ? Hhead Htail]; subst. simpl.
    rewrite (Hhead _ Hc). apply IH. exact Htail.
  - discriminate.
Qed.

Lemma prepared_containsNull_total (r : VectorReader) :
  prepared r = true -> forall i, exists b, containsNull r i = Returns b.
Proof.
  induction r as [d | d offsets lengths k v km vm IHk IHv
                  | d offsets lengths c vm IHc | d cs IHcs | d]
    using VectorReader_ind; simpl prepared; intros Hp i.
  - simpl. eauto.
  - apply andb_prop in Hp. destruct Hp as [Hp Hv].
    apply andb_prop in Hp. destruct Hp as [Hp Hk].
    apply andb_prop in Hp. destruct Hp as [Hkm Hvm].
    destruct km as [kf |]; [| discriminate].
    destruct vm as [vf |]; [| discriminate].
    rewrite containsNull_Map.
    apply orElse_total; [eauto |].
    apply orElse_total; apply andThen_total; intros _;
      apply containsNullRange_total; auto.
  - apply andb_prop in Hp. destruct Hp as [Hvm Hc].
    destruct vm as [vf |]; [| discriminate].
    rewrite containsNull_Array.
    apply orElse_total; [eauto |].
    apply andThen_total; intros _.
    apply containsNullRange_total; auto.
  - rewrite containsNull_Row. destruct (isNullAt d i); [eauto |].
    apply anyOf_total. rewrite forallb_forall in Hp.
    rewrite Forall_forall in IHcs |- *. intros c Hin.
    apply IHcs; auto.
  - discriminate.
Qed.

Lemma prepared_mayHaveNullsRecursive_total (r : VectorReader) :
  prepared r = true -> exists b, mayHaveNullsRecursive r = Returns b.
Proof.
  destruct r as [d | d offsets lengths k v [kf |] [vf |]
                 | d offsets lengths c [vf |] | d cs | d];
    simpl; intros Hp; try discriminate; eauto.
Qed.

Lemma setChildrenMayHaveNulls_flag (r : VectorReader) :
  forall r', setChildrenMayHaveNulls r = Returns r' ->
    mayHaveNullsRecursive r' = Returns (sourcesMayHaveNulls r).
Proof.
  induction r as [d | d offsets lengths k v km vm IHk IHv
                  | d offsets lengths c vm IHc | d cs IHcs | d]
    using VectorReader_ind; intros r' E.
  - injection E as <-. reflexivity.
  - apply setChildrenMayHaveNulls_Map_inv in E.
    destruct E as (k' & v' & kf & vf & Hk & Hv & Hkf & Hvf & ->).
    rewrite (IHk _ Hk) in Hkf. rewrite (IHv _ Hv) in Hvf.
    injection Hkf as <-. injection Hvf as <-. reflexivity.
  - apply setChildrenMayHaveNulls_Array_inv in E.
    destruct E as (c' & vf & Hc & Hvf & ->).
    rewrite (IHc _ Hc) in Hvf. injection Hvf as <-. reflexivity.
  - apply setChildrenMayHaveNulls_Row_inv in E.
    destruct E as (cs' & _ & ->). reflexivity.
  - discriminate.
Qed.

Lemma orElse_true_of_total (a b : Outcome bool) :
  (exists x, a = Returns x) ->
  (orElse a b = Returns true <-> a = Returns true \/ b = Returns true).
Proof.
  intros [x ->]. rewrite orElse_Returns_true.
  destruct x; intuition (try discriminate; auto).
Qed.

Lemma anyOf_failure_inv {A : Type} (f : A -> Outcome bool) (xs : list A) (m : string) :
  anyOf f xs = DCheckFailed m -> Exists (fun x => f x = DCheckFailed m) xs.
Proof.
  induction xs as [| x rest IH]; simpl; [discriminate |].
  unfold orElse, bind. destruct (f x) as [[|] | m' | m'] eqn:Hx;
    intros E; try discriminate.
  - right. apply IH. exact E.
  - left. rewrite Hx. exact E.
Qed.

(** ** Properties of the setup phase *)

(** X1.  [setChildrenMayHaveNulls()] is idempotent: once a call has
    returned, a second call returns too and leaves the reader, memo slots
    included, as the first call left it. *)
Theorem setChildrenMayHaveNulls_idempotent (r : VectorReader) :
  forall r', setChildrenMayHaveNulls r = Returns r' ->
    setChildrenMayHaveNulls r' = Returns r'.
Proof.
  induction r as [d | d offsets lengths k v km vm IHk IHv
                  | d offsets lengths c vm IHc | d cs IHcs | d]
    using VectorReader_ind; intros r' E.
  - injection E as <-. reflexivity.
  - apply setChildrenMayHaveNulls_Map_inv in E.
    destruct E as (k' & v' & kf & vf & Hk & Hv & Hkf & Hvf & ->).
    simpl. rewrite (IHk _ Hk), (IHv _ Hv). simpl. rewrite Hkf, Hvf. reflexivity.
  - apply setChildrenMayHaveNulls_Array_inv in E.
    destruct E as (c' & vf & Hc & Hvf & ->).
    simpl. rewrite (IHc _ Hc). simpl. rewrite Hvf. reflexivity.
  - apply setChildrenMayHaveNulls_Row_inv in E.
    destruct E as (cs' & Hcs & ->). simpl.
    assert (Hall : forEach setChildrenMayHaveNulls cs' = Returns cs').
    { induction Hcs as [| c c' rest rest' Hc _ IH]; [reflexivity |].
      inversion IHcs as [| ? ? Hhead Htail]; subst. simpl.
      rewrite (Hhead _ Hc). simpl. rewrite (IH Htail). reflexivity. }
    rewrite Hall. reflexivity.
  - discriminate.
Qed.

(** The map column of the tests: the second call finds nothing to change. *)
Lemma setChildrenMayHaveNulls_idempotent_witness :
  setChildrenMayHaveNulls (afterSetup testMapReader)
    = Returns (afterSetup testMapReader).
Proof.
  apply (setChildrenMayHaveNulls_idempotent testMapReader). reflexivity.
Defined.

(** X2.  Once [setChildrenMayHaveNulls()] has returned, every query of the
    second phase returns on the reader it left: [containsNull(index)],
    [containsNull(start, end)] and [mayHaveNullsRecursive()] neither fail a
    check nor throw. *)
Theorem queries_after_setup_return (r r' : VectorReader) :
  setChildrenMayHaveNulls r = Returns r' ->
  (forall i, exists b, containsNull r' i = Returns b) /\
  (forall s e, exists b, containsNullRange r' s e = Returns b) /\
  (exists b, mayHaveNullsRecursive r' = Returns b).
Proof.
  intros E. apply setChildrenMayHaveNulls_prepared in E.
  pose proof (prepared_containsNull_total r' E) as Hcn.
  split; [exact Hcn | split].
  - intros s e. apply containsNullRange_total; assumption.
  - apply prepared_mayHaveNullsRecursive_total. exact E.
Qed.

(** The map column of the tests after the setup phase. *)
Lemma queries_after_setup_return_witness :
  (forall i, exists b, containsNull (afterSetup testMapReader) i = Returns b) /\
  (forall s e, exists b,
     containsNullRange (afterSetup testMapReader) s e = Returns b) /\
  (exists b, mayHaveNullsRecursive (afterSetup testMapReader) = Returns b).
Proof.
  apply (queries_after_setup_return testMapReader). reflexivity.
Defined.

(** ** The scenarios of the tests *)

(** The map column of [MapViewTest]: the setup phase returns, the flag is
    set (rows 1 and 2 hold a null value), and the rows report
    [containsNull] accordingly. *)
Example testMap_null_protocol :
  setChildrenMayHaveNulls testMapReader = Returns (afterSetup testMapReader) /\
  mayHaveNullsRecursive (afterSetup testMapReader) = Returns true /\
  containsNull (afterSetup testMapReader) 0 = Returns false /\
  containsNull (afterSetup testMapReader) 1 = Returns true /\
  containsNull (afterSetup testMapReader) 2 = Returns true.
Proof. repeat split. Qed.

(** Row 1 has size 3 with keys [1, 3, 4] and values [4, 3, null]; row 2
    keeps the key 10 three times, in storage order. *)
Example testMap_views :
  subscript testMapReader 1 =
    MapViewOf (MapView.mk (ScalarReader testKeys) (ScalarReader testValues) 0 3) /\
  subscript testMapReader 2 =
    MapViewOf (MapView.mk (ScalarReader testKeys) (ScalarReader testValues) 3 5) /\
  MapView.size (MapView.mk testKeys testValues 0 3) = 3 /\
  keysOf (MapView.mk testKeys testValues 0 3) = [1; 3; 4] /\
  valuesOf (MapView.mk testKeys testValues 0 3)
    = [Returns (Some 4); Returns (Some 3); Returns None] /\
  keysOf (MapView.mk testKeys testValues 3 5) = [10; 4; 1; 10; 10] /\
  valuesOf (MapView.mk testKeys testValues 3 5)
    = [Returns (Some 10); Returns None; Returns (Some 4); Returns (Some 4);
       Returns None].
Proof. repeat split. Qed.

(** The array column with row lengths [0, 3, 5] and elements null unless
    their position in the row is a multiple of 5: the empty row reports no
    null, the other two do. *)
Example benchArray_null_protocol :
  setChildrenMayHaveNulls benchArrayReader = Returns (afterSetup benchArrayReader) /\
  containsNull (afterSetup benchArrayReader) 0 = Returns false /\
  containsNull (afterSetup benchArrayReader) 1 = Returns true /\
  containsNull (afterSetup benchArrayReader) 2 = Returns true.
Proof. repeat split. Qed.

(** ** Calling the query phase before the setup phase *)

Lemma anyOf_DCheckFailed_iff {A : Type} (f : A -> Outcome bool)
    (xs : list A) (m : string) :
  anyOf f xs = DCheckFailed m <->
  exists pre x post,
    xs = pre ++ x :: post /\
    Forall (fun y => f y = Returns false) pre /\
    f x = DCheckFailed m.
Proof.
  induction xs as [| x rest IH]; simpl.
  - split; [discriminate |].
    intros (pre & y & post & E & _). destruct pre; discriminate.
  - assert (Hcases :
      forall pre y post,
        x :: rest = pre ++ y :: post ->
        Forall (fun z => f z = Returns false) pre ->
        f y = DCheckFailed m ->
        (pre = [] /\ y = x /\ post = rest /\ f x = DCheckFailed m) \/
        (exists pre', pre = x :: pre' /\ rest = pre' ++ y :: post /\
                      f x = Returns false /\
                      Forall (fun z => f z = Returns false) pre')).
    { intros pre y post E Hpre Hy. destruct pre as [| p pre]; simpl in E.
      - injection E as -> ->. left. auto.
      - injection E as <- ->. right. exists pre.
        inversion Hpre; subst. auto. }
    unfold orElse, bind. destruct (f x) as [[|] | m' | m'] eqn:Hx.
    + split; [discriminate |].
      intros (pre & y & post & E & Hpre & Hy).
      destruct (Hcases _ _ _ E Hpre Hy)
        as [(_ & _ & _ & H) | (pre' & _ & _ & H & _)]; discriminate.
    + rewrite IH. split.
      * intros (pre & y & post & -> & Hpre & Hy).
        exists (x :: pre), y, post.
        split; [reflexivity | split; [constructor; assumption | exact Hy]].
      * intros (pre & y & post & E & Hpre & Hy).
        destruct (Hcases _ _ _ E Hpre Hy)
          as [(_ & _ & _ & H) | (pre' & _ & -> & _ & Hpre')];
          [discriminate |].
        exists pre', y, post. auto.
    + split.
      * intros E. injection E as ->. exists [], x, rest.
        split; [reflexivity | split; [constructor | exact Hx]].
      * intros (pre & y & post & E & Hpre & Hy).
        destruct (Hcases _ _ _ E Hpre Hy)
          as [(_ & _ & _ & H) | (pre' & _ & _ & H & _)];
          [congruence | discriminate].
    + split; [discriminate |].
      intros (pre & y & post & E & Hpre & Hy).
      destruct (Hcases _ _ _ E Hpre Hy)
        as [(_ & _ & _ & H) | (pre' & _ & _ & H & _)]; discriminate.
Qed.

Lemma containsNullFrom_DCheckFailed_iff (cn : vector_size_t -> Outcome bool)
    (count : nat) (m : string) :
  forall start,
    containsNullFrom cn count start = DCheckFailed m <->
    exists j,
      start <= j < start + Z.of_nat count /\
      (forall j', start <= j' < j -> cn j' = Returns false) /\
      cn j = DCheckFailed m.
Proof.
  induction count as [| count IH]; intros start; simpl.
  - split; [discriminate | intros (j & Hj & _); lia].
  - unfold bind. destruct (cn start) as [[|] | m' | m'] eqn:Hs.
    + split; [discriminate |].
      intros (j & Hj & Hbefore & Hfail).
      destruct (Z.eq_dec j start) as [-> | Hne]; [congruence |].
      specialize (Hbefore start ltac:(lia)). congruence.
    + rewrite IH. split.
      * intros (j & Hj & Hbefore & Hfail). exists j.
        split; [lia | split; [| exact Hfail]].
        intros j' Hj'. destruct (Z.eq_dec j' start) as [-> | Hne];
          [exact Hs | apply Hbefore; lia].
      * intros (j & Hj & Hbefore & Hfail).
        destruct (Z.eq_dec j start) as [-> | Hne]; [congruence |].
        exists j. split; [lia | split; [| exact Hfail]].
        intros j' Hj'. apply Hbefore. lia.
    + split.
      * intros E. injection E as ->. exists start.
        split; [lia | split; [intros j' Hj'; lia | exact Hs]].
      * intros (j & Hj & Hbefore & Hfail).
        destruct (Z.eq_dec j start) as [-> | Hne]; [congruence |].
        specialize (Hbefore start ltac:(lia)). congruence.
    + split; [discriminate |].
      intros (j & Hj & Hbefore & Hfail).
      destruct (Z.eq_dec j start) as [-> | Hne]; [congruence |].
      specialize (Hbefore start ltac:(lia)). congruence.
Qed.

Lemma containsNullLoop_DCheckFailed_iff (cn : vector_size_t -> Outcome bool)
    (s e : vector_size_t) (m : string) :
  containsNullLoop cn s e = DCheckFailed m <->
  exists j,
    s <= j < e /\
    (forall j', s <= j' < j -> cn j' = Returns false) /\
    cn j = DCheckFailed m.
Proof.
  unfold containsNullLoop. rewrite containsNullFrom_DCheckFailed_iff.
  split; intros (j & Hj & Hbefore & Hfail); exists j;
    (split; [lia | split; [exact Hbefore | exact Hfail]]).
Qed.

Lemma memoUnset_containsNull (r : VectorReader) (i : vector_size_t) :
  memoUnset r = true -> containsNull r i = DCheckFailed msgContainsNull.
Proof.
  destruct r as [d | d offsets lengths k v km vm
                 | d offsets lengths c vm | d cs | d];
    simpl; intros Hr; try discriminate;
    apply negb_true_iff in Hr; rewrite Hr; reflexivity.
Qed.

Lemma memoUnset_mayHaveNullsRecursive (r : VectorReader) :
  memoUnset r = true ->
  mayHaveNullsRecursive r = DCheckFailed msgMayHaveNullsRecursive.
Proof.
  destruct r as [d | d offsets lengths k v km vm
                 | d offsets lengths c vm | d cs | d];
    simpl; intros Hr; try discriminate;
    apply negb_true_iff in Hr; rewrite Hr; reflexivity.
Qed.

Lemma memoUnset_containsNullRange (r : VectorReader) (s e : vector_size_t) :
  memoUnset r = true ->
  containsNullRange r s e = containsNullLoop (containsNull r) s e.
Proof.
  destruct r; simpl; intros Hr; try discriminate; reflexivity.
Qed.

(** C1 (as the code has it).  A Map or Array reader whose memo is still
    empty fails the debug check in [containsNull(index)] and in
    [mayHaveNullsRecursive()]; [containsNull(start, end)] fails it when
    [start < end] and returns [false] without any check when the range is
    empty.

    Row and Variadic readers hold no memo and check nothing themselves.
    A Row reader's [mayHaveNullsRecursive()] returns its source's flag.
    Its [containsNull(i)] returns [true] on a null row without asking a
    field; on a row that is not null it asks the fields in order at the
    decoded index and fails the check exactly when some field fails it
    after every field before it has returned [false], as a Map or Array
    field with an empty memo does.  Its [containsNull(start, end)] fails
    exactly when [containsNull(j)] fails for some row [j] of the range
    after every earlier row of the range has returned [false].

    A Variadic reader's [containsNull(i)], [containsNull(start, end)] and
    [mayHaveNullsRecursive()] ask the arguments in order, and each fails
    the check exactly when some argument fails it in the same query after
    every argument before it has returned [false], as a Map or Array
    argument with an empty memo does (for the range form, on a range that
    is not empty). *)
Theorem queries_before_setup :
  (forall r, memoUnset r = true ->
     (forall i, containsNull r i = DCheckFailed msgContainsNull) /\
     mayHaveNullsRecursive r = DCheckFailed msgMayHaveNullsRecursive /\
     (forall s e, s < e ->
        containsNullRange r s e = DCheckFailed msgContainsNull) /\
     (forall s e, e <= s -> containsNullRange r s e = Returns false)) /\
  (forall d cs,
     mayHaveNullsRecursive (RowReader d cs) =
       Returns (decodedMayHaveNullsRecursive d) /\
     (forall i, isNullAt d i = true ->
        containsNull (RowReader d cs) i = Returns true) /\
     (forall i m,
        containsNull (RowReader d cs) i = DCheckFailed m <->
        isNullAt d i = false /\
        exists pre c post,
          cs = pre ++ c :: post /\
          Forall (fun c0 => containsNull c0 (index d i) = Returns false) pre /\
          containsNull c (index d i) = DCheckFailed m) /\
     (forall i pre c post,
        isNullAt d i = false ->
        cs = pre ++ c :: post ->
        Forall (fun c0 => containsNull c0 (index d i) = Returns false) pre ->
        memoUnset c = true ->
        containsNull (RowReader d cs) i = DCheckFailed msgContainsNull) /\
     (forall s e m,
        containsNullRange (RowReader d cs) s e = DCheckFailed m <->
        exists j,
          s <= j < e /\
          (forall j', s <= j' < j ->
             containsNull (RowReader d cs) j' = Returns false) /\
          containsNull (RowReader d cs) j = DCheckFailed m)) /\
  (forall cs,
     (forall i m,
        Variadic.containsNull (mkVariadic cs) i = DCheckFailed m <->
        exists pre c post,
          cs = pre ++ c :: post /\
          Forall (fun c0 => containsNull c0 i = Returns false) pre /\
          containsNull c i = DCheckFailed m) /\
     (forall s e m,
        Variadic.containsNullRange (mkVariadic cs) s e = DCheckFailed m <->
        exists pre c post,
          cs = pre ++ c :: post /\
          Forall (fun c0 => containsNullRange c0 s e = Returns false) pre /\
          containsNullRange c s e = DCheckFailed m) /\
     (forall m,
        Variadic.mayHaveNullsRecursive (mkVariadic cs) = DCheckFailed m <->
        exists pre c post,
          cs = pre ++ c :: post /\
          Forall (fun c0 => mayHaveNullsRecursive c0 = Returns false) pre /\
          mayHaveNullsRecursive c = DCheckFailed m) /\
     (forall pre c post,
        cs = pre ++ c :: post ->
        memoUnset c = true ->
        (forall i,
           Forall (fun c0 => containsNull c0 i = Returns false) pre ->
           Variadic.containsNull (mkVariadic cs) i
             = DCheckFailed msgContainsNull) /\
        (forall s e,
           s < e ->
           Forall (fun c0 => containsNullRange c0 s e = Returns false) pre ->
           Variadic.containsNullRange (mkVariadic cs) s e
             = DCheckFailed msgContainsNull) /\
        (Forall (fun c0 => mayHaveNullsRecursive c0 = Returns false) pre ->
         Variadic.mayHaveNullsRecursive (mkVariadic cs)
           = DCheckFailed msgMayHaveNullsRecursive))).
Proof.
  assert (Hrange : forall r s e, memoUnset r = true -> s < e ->
            containsNullRange r s e = DCheckFailed msgContainsNull).
  { intros r s e Hr Hlt. rewrite memoUnset_containsNullRange by exact Hr.
    apply containsNullLoop_DCheckFailed_iff. exists s.
    split; [lia | split; [intros j' Hj'; lia |]].
    apply memoUnset_containsNull. exact Hr. }
  split; [| split].
  - intros r Hr.
    split; [intros i; apply memoUnset_containsNull; exact Hr |].
    split; [apply memoUnset_mayHaveNullsRecursive; exact Hr |].
    split; [intros s e Hlt; apply Hrange; assumption |].
    intros s e Hle. rewrite memoUnset_containsNullRange by exact Hr.
    apply containsNullLoop_empty. exact Hle.
  - intros d cs.
    assert (Hiff : forall i m,
              containsNull (RowReader d cs) i = DCheckFailed m <->
              isNullAt d i = false /\
              exists pre c post,
                cs = pre ++ c :: post /\
                Forall (fun c0 => containsNull c0 (index d i) = Returns false)
                       pre /\
                containsNull c (index d i) = DCheckFailed m).
    { intros i m. rewrite containsNull_Row. destruct (isNullAt d i).
      - split; [discriminate | intros [H _]; discriminate].
      - rewrite anyOf_DCheckFailed_iff. split; [auto | intros [_ H]; exact H]. }
    split; [reflexivity |].
    split; [intros i Hnull; rewrite containsNull_Row, Hnull; reflexivity |].
    split; [exact Hiff |].
    split.
    + intros i pre c post Hnull Hcs Hpre Hc. apply Hiff.
      split; [exact Hnull |]. exists pre, c, post.
      split; [exact Hcs | split; [exact Hpre |]].
      apply memoUnset_containsNull. exact Hc.
    + intros s e m. apply containsNullLoop_DCheckFailed_iff.
  - intros cs.
    split; [intros i m; apply anyOf_DCheckFailed_iff |].
    split; [intros s e m; apply anyOf_DCheckFailed_iff |].
    split; [intros m; apply anyOf_DCheckFailed_iff |].
    intros pre c post Hcs Hc. split; [| split].
    + intros i Hpre. apply anyOf_DCheckFailed_iff. exists pre, c, post.
      split; [exact Hcs | split; [exact Hpre |]].
      apply memoUnset_containsNull. exact Hc.
    + intros s e Hlt Hpre.
      apply (anyOf_DCheckFailed_iff
               (fun childReader => containsNullRange childReader s e)).
      exists pre, c, post.
      split; [exact Hcs | split; [exact Hpre |]].
      apply Hrange; assumption.
    + intros Hpre. apply anyOf_DCheckFailed_iff. exists pre, c, post.
      split; [exact Hcs | split; [exact Hpre |]].
      apply memoUnset_mayHaveNullsRecursive. exact Hc.
Qed.

(** The statement before any setup: at the map column of the tests; at a
    Row reader whose only field is that fresh Map reader, on row 1, which
    is not null; and at a Variadic reader whose second argument is the
    fresh Map reader, the first being the key column, which holds no
    null. *)
Lemma queries_before_setup_witness :
  containsNull testMapReader 1 = DCheckFailed msgContainsNull /\
  mayHaveNullsRecursive testMapReader = DCheckFailed msgMayHaveNullsRecursive /\
  containsNullRange testMapReader 0 3 = DCheckFailed msgContainsNull /\
  containsNullRange testMapReader 3 3 = Returns false /\
  containsNull (RowReader testMapRows [testMapReader]) 1
    = DCheckFailed msgContainsNull /\
  containsNullRange (RowReader testMapRows [testMapReader]) 0 3
    = DCheckFailed msgContainsNull /\
  Variadic.containsNull (mkVariadic [ScalarReader testKeys; testMapReader]) 0
    = DCheckFailed msgContainsNull /\
  Variadic.containsNullRange
    (mkVariadic [ScalarReader testKeys; testMapReader]) 0 3
    = DCheckFailed msgContainsNull /\
  Variadic.mayHaveNullsRecursive
    (mkVariadic [ScalarReader testKeys; testMapReader])
    = DCheckFailed msgMayHaveNullsRecursive.
Proof.
  destruct queries_before_setup as (Hmemo & Hrow & Hvar).
  destruct (Hmemo testMapReader eq_refl) as (Hcn & Hrec & Hrange & Hempty).
  destruct (Hrow testMapRows [testMapReader])
    as (_ & _ & _ & Hrowfail & Hrowrange).
  destruct (Hvar [ScalarReader testKeys; testMapReader])
    as (_ & _ & _ & Hvarfail).
  destruct (Hvarfail [ScalarReader testKeys] testMapReader [] eq_refl eq_refl)
    as (Hvcn & Hvrange & Hvrec).
  assert (Hrow1 : forall i,
            isNullAt testMapRows i = false ->
            containsNull (RowReader testMapRows [testMapReader]) i
              = DCheckFailed msgContainsNull).
  { intros i Hnull.
    apply (Hrowfail i [] testMapReader []);
      [exact Hnull | reflexivity | constructor | reflexivity]. }
  split; [apply Hcn |].
  split; [exact Hrec |].
  split; [apply Hrange; reflexivity |].
  split; [apply Hempty; discriminate |].
  split; [apply Hrow1; reflexivity |].
  split.
  - apply Hrowrange. exists 0.
    split; [split; [discriminate | reflexivity] |].
    split; [intros j' Hj'; lia |].
    apply Hrow1. reflexivity.
  - split; [apply Hvcn; constructor; [reflexivity | constructor] |].
    split; [apply Hvrange; [reflexivity | constructor; [reflexivity | constructor]] |].
    apply Hvrec. constructor; [reflexivity | constructor].
Defined.

(** C1 as stated fails: without any call to [setChildrenMayHaveNulls()],
    a Row reader over a fresh Map reader answers
    [mayHaveNullsRecursive()], a Variadic reader over a scalar answers
    [containsNull(0)], and a fresh Map reader answers [containsNull(0, 0)];
    none of them fails a check. *)
Lemma queries_before_setup_counterexample :
  mayHaveNullsRecursive (RowReader testMapRows [testMapReader]) = Returns false /\
  Variadic.containsNull (mkVariadic [ScalarReader testKeys]) 0 = Returns false /\
  Variadic.mayHaveNullsRecursive (mkVariadic [ScalarReader testValues])
    = Returns true /\
  memoUnset testMapReader = true /\
  containsNullRange testMapReader 0 0 = Returns false.
Proof. repeat split. Qed.

(** ** [containsNull] after the setup phase *)

(** C2.  Once [setChildrenMayHaveNulls()] has returned, the Map reader's
    [containsNull(i)] returns, and it returns [true] exactly when the map
    row is null at [i], or the memoized key flag is set and some key in the
    row's window reports [containsNull], or the memoized value flag is set
    and some value in that window reports [containsNull]. *)
Theorem Map_containsNull_after_setup d offsets lengths k v km vm r' :
  setChildrenMayHaveNulls (MapReader d offsets lengths k v km vm) = Returns r' ->
  exists k' v' kf vf,
    r' = MapReader d offsets lengths k' v' (Some kf) (Some vf) /\
    mayHaveNullsRecursive k' = Returns kf /\
    mayHaveNullsRecursive v' = Returns vf /\
    forall i,
      let first := offsets (index d i) in
      let last := offsets (index d i) + lengths (index d i) in
      (exists b, containsNull r' i = Returns b) /\
      (containsNull r' i = Returns true <->
         isNullAt d i = true \/
         (kf = true /\
          exists j, first <= j < last /\ containsNull k' j = Returns true) \/
         (vf = true /\
          exists j, first <= j < last /\ containsNull v' j = Returns true)).
Proof.
  intros E.
  pose proof (setChildrenMayHaveNulls_prepared _ _ E) as Hp.
  apply setChildrenMayHaveNulls_Map_inv in E.
  destruct E as (k' & v' & kf & vf & Hk & Hv & Hkf & Hvf & ->).
  exists k', v', kf, vf.
  split; [reflexivity | split; [exact Hkf | split; [exact Hvf |]]].
  intros i first last. split.
  - apply prepared_containsNull_total. exact Hp.
  - apply setChildrenMayHaveNulls_prepared in Hk.
    apply setChildrenMayHaveNulls_prepared in Hv.
    pose proof (prepared_containsNull_total _ Hk) as Tk.
    pose proof (prepared_containsNull_total _ Hv) as Tv.
    rewrite containsNull_Map. fold first last.
    rewrite orElse_true_of_total by eauto.
    rewrite orElse_true_of_total
      by (apply andThen_total; intros _; apply containsNullRange_total; auto).
    rewrite !andThen_Returns_true.
    rewrite !containsNullRange_Returns_true by auto.
    split; (intros [Hnull | Hrest]; [left; congruence | right; exact Hrest]).
Qed.

(** The map column of the tests after the setup phase: row 1 holds the
    entry [4 : null], found at position 2 of the value column. *)
Lemma Map_containsNull_after_setup_witness :
  setChildrenMayHaveNulls testMapReader = Returns (afterSetup testMapReader) /\
  containsNull (afterSetup testMapReader) 1 = Returns true.
Proof.
  split; [reflexivity |].
  destruct (Map_containsNull_after_setup testMapRows
              (rawBuffer [0; 0; 3]) (rawBuffer [0; 3; 5])
              (ScalarReader testKeys) (ScalarReader testValues) None None
              (afterSetup testMapReader) eq_refl)
    as (k' & v' & kf & vf & Heq & Hkf & Hvf & Hspec).
  cbv in Heq. injection Heq as <- <- <- <-.
  apply (Hspec 1). right. right. split; [reflexivity |].
  exists 2. split; [split; [discriminate | reflexivity] | reflexivity].
Defined.

(** C3.  Once [setChildrenMayHaveNulls()] has returned, the Array reader's
    [containsNull(i)] returns, and it returns [true] exactly when the array
    row is null at [i], or the memoized flag of the element subtree is set
    and some element in the row's window reports [containsNull]; a row of
    length 0 that is not null itself yields [false]. *)
Theorem Array_containsNull_after_setup d offsets lengths c vm r' :
  setChildrenMayHaveNulls (ArrayReader d offsets lengths c vm) = Returns r' ->
  exists c' vf,
    r' = ArrayReader d offsets lengths c' (Some vf) /\
    mayHaveNullsRecursive c' = Returns vf /\
    forall i,
      let first := offsets (index d i) in
      let last := offsets (index d i) + lengths (index d i) in
      (exists b, containsNull r' i = Returns b) /\
      (containsNull r' i = Returns true <->
         isNullAt d i = true \/
         (vf = true /\
          exists j, first <= j < last /\ containsNull c' j = Returns true)) /\
      (lengths (index d i) = 0 -> isNullAt d i = false ->
       containsNull r' i = Returns false).
Proof.
  intros E.
  pose proof (setChildrenMayHaveNulls_prepared _ _ E) as Hp.
  apply setChildrenMayHaveNulls_Array_inv in E.
  destruct E as (c' & vf & Hc & Hvf & ->).
  exists c', vf.
  split; [reflexivity | split; [exact Hvf |]].
  intros i first last.
  apply setChildrenMayHaveNulls_prepared in Hc.
  pose proof (prepared_containsNull_total _ Hc) as Tc.
  split; [| split].
  - apply prepared_containsNull_total. exact Hp.
  - rewrite containsNull_Array. fold first last.
    rewrite orElse_true_of_total by eauto.
    rewrite andThen_Returns_true.
    rewrite containsNullRange_Returns_true by auto.
    split; (intros [Hnull | Hrest]; [left; congruence | right; exact Hrest]).
  - intros Hlen Hnull. rewrite containsNull_Array, Hnull.
    rewrite containsNullRange_prepared by exact Hc.
    rewrite containsNullLoop_empty by lia.
    unfold orElse, andThen; simpl. destruct vf; reflexivity.
Qed.

(** The array column [[], [7, 8], [null]] after the setup phase: the empty
    row 0 reports no null, row 2 reports the null at position 2 of the
    element column. *)
Lemma Array_containsNull_after_setup_witness :
  setChildrenMayHaveNulls testArrayReader = Returns (afterSetup testArrayReader) /\
  containsNull (afterSetup testArrayReader) 0 = Returns false /\
  containsNull (afterSetup testArrayReader) 2 = Returns true.
Proof.
  split; [reflexivity |].
  destruct (Array_containsNull_after_setup testArrayRows
              (rawBuffer [0; 0; 2]) (rawBuffer [0; 2; 1])
              (ScalarReader testElements) None
              (afterSetup testArrayReader) eq_refl)
    as (c' & vf & Heq & Hvf & Hspec).
  cbv in Heq. injection Heq as <- <-.
  split.
  - apply (Hspec 0); reflexivity.
  - apply (Hspec 2). right. split; [reflexivity |].
    exists 2. split; [split; [discriminate | reflexivity] | reflexivity].
Defined.

(** ** The Generic reader *)

(** C4.  On a Generic reader each of [containsNull(index)],
    [containsNull(start, end)], [mayHaveNullsRecursive()] and
    [setChildrenMayHaveNulls()] throws the unsupported-operation error,
    whatever the decoded source and the arguments; none of them returns. *)
Theorem Generic_null_protocol_unsupported (d : DecodedVector) :
  (forall i, containsNull (GenericReader d) i = Unsupported msgGeneric) /\
  (forall s e, containsNullRange (GenericReader d) s e = Unsupported msgGeneric) /\
  mayHaveNullsRecursive (GenericReader d) = Unsupported msgGeneric /\
  setChildrenMayHaveNulls (GenericReader d) = Unsupported msgGeneric /\
  (forall i b, containsNull (GenericReader d) i <> Returns b) /\
  (forall s e b, containsNullRange (GenericReader d) s e <> Returns b) /\
  (forall b, mayHaveNullsRecursive (GenericReader d) <> Returns b) /\
  (forall r', setChildrenMayHaveNulls (GenericReader d) <> Returns r').
Proof.
  repeat split; intros; discriminate.
Qed.

(** ** [mayHaveNullsRecursive] after the setup phase *)

Lemma sourceSound_not_null (d : DecodedVector) (i : vector_size_t) :
  sourceSound d -> mayHaveNulls d = false -> isNullAt d i = false.
Proof.
  intros Hs Hm. destruct (isNullAt d i) eqn:Hn; [| reflexivity].
  rewrite (Hs i Hn) in Hm. discriminate.
Qed.

Lemma no_flag_no_null (r : VectorReader) :
  sourcesSound r -> sourcesMayHaveNulls r = false ->
  forall r', setChildrenMayHaveNulls r = Returns r' ->
  forall i, containsNull r' i = Returns false.
Proof.
  induction r as [d | d offsets lengths k v km vm IHk IHv
                  | d offsets lengths c vm IHc | d cs IHcs | d]
    using VectorReader_ind; intros Hs Hf r' E i.
  - injection E as <-. simpl in *.
    rewrite (sourceSound_not_null d i Hs Hf). reflexivity.
  - pose proof (setChildrenMayHaveNulls_flag _ _ E) as Hflag.
    apply setChildrenMayHaveNulls_Map_inv in E.
    destruct E as (k' & v' & kf & vf & Hk & Hv & Hkf & Hvf & ->).
    simpl in Hs, Hf. destruct Hs as (Hd & _ & _).
    apply orb_false_elim in Hf. destruct Hf as [Hf Hfv].
    apply orb_false_elim in Hf. destruct Hf as [Hfd Hfk].
    rewrite (setChildrenMayHaveNulls_flag _ _ Hk), Hfk in Hkf.
    rewrite (setChildrenMayHaveNulls_flag _ _ Hv), Hfv in Hvf.
    injection Hkf as <-. injection Hvf as <-.
    rewrite containsNull_Map, (sourceSound_not_null d i Hd Hfd). reflexivity.
  - apply setChildrenMayHaveNulls_Array_inv in E.
    destruct E as (c' & vf & Hc & Hvf & ->).
    simpl in Hs, Hf. destruct Hs as (Hd & _).
    apply orb_false_elim in Hf. destruct Hf as [Hfd Hfc].
    rewrite (setChildrenMayHaveNulls_flag _ _ Hc), Hfc in Hvf.
    injection Hvf as <-.
    rewrite containsNull_Array, (sourceSound_not_null d i Hd Hfd). reflexivity.
  - apply setChildrenMayHaveNulls_Row_inv in E.
    destruct E as (cs' & Hcs & ->).
    simpl in Hs, Hf. destruct Hs as (Hd & Hrec & Hall).
    destruct (Hrec Hf) as [Hfd Hex].
    rewrite containsNull_Row, (sourceSound_not_null d i Hd Hfd).
    clear Hrec Hf. generalize (index d i) as j. intros j.
    induction Hcs as [| c c' rest rest' Hc _ IH]; [reflexivity |].
    inversion IHcs as [| ? ? Hhead Htail]; subst.
    destruct Hall as [Hsc Hsrest].
    simpl in Hex. apply orb_false_elim in Hex. destruct Hex as [Hfc Hfrest].
    simpl. rewrite (Hhead Hsc Hfc _ Hc j). unfold orElse; simpl.
    apply IH; assumption.
  - discriminate.
Qed.

Lemma anyOf_flags (cs cs' : list VectorReader) :
  Forall2 (fun c c' => setChildrenMayHaveNulls c = Returns c') cs cs' ->
  anyOf mayHaveNullsRecursive cs' = Returns (existsb sourcesMayHaveNulls cs).
Proof.
  induction 1 as [| c c' rest rest' Hc _ IH]; [reflexivity |].
  simpl. rewrite (setChildrenMayHaveNulls_flag _ _ Hc), IH.
  unfold orElse; simpl. destruct (sourcesMayHaveNulls c); reflexivity.
Qed.

Lemma flatDecoded_sound (xs : list (option Z)) : sourceSound (flatDecoded xs).
Proof.
  intros i. simpl.
  destruct (nth_error xs (Z.to_nat i)) as [[v |] |] eqn:Hn; try discriminate.
  intros _. apply existsb_exists. exists None.
  split; [eapply nth_error_In; exact Hn | reflexivity].
Qed.

Lemma any_null_any_flag (cs cs' : list VectorReader) (i : vector_size_t) :
  Forall2 (fun c c' => setChildrenMayHaveNulls c = Returns c') cs cs' ->
  Forall sourcesSound cs ->
  anyOf (fun c' => containsNull c' i) cs' = Returns true ->
  existsb sourcesMayHaveNulls cs = true.
Proof.
  induction 1 as [| c c' rest rest' Hc _ IH]; simpl; [discriminate |].
  intros Hs Hany. inversion Hs as [| ? ? Hsc Hsrest]; subst.
  apply orElse_Returns_true in Hany.
  destruct (sourcesMayHaveNulls c) eqn:Hf; [reflexivity |]. simpl.
  destruct Hany as [Hcn | [_ Hrest]].
  - rewrite (no_flag_no_null c Hsc Hf c' Hc i) in Hcn. discriminate.
  - apply IH; assumption.
Qed.

(** C8 (as the code has it).  After [setChildrenMayHaveNulls()] has
    returned, [mayHaveNullsRecursive()] returns one flag for the whole
    batch, not an answer per row.  On a scalar, Map or Array reader it is
    [true] exactly when [mayHaveNulls()] holds for the reader's own decoded
    source or the flag of a child reader (keys, values, elements) is
    [true]; a Row reader returns what its decoded source's
    [mayHaveNullsRecursive()] says, whatever its fields hold; a Variadic
    reader returns the OR of its arguments' flags.

    Provided (a) every decoded source in the tree reports [mayHaveNulls()]
    whenever one of its rows is null, and (b) whenever the decoded source
    of a Row reader answers [mayHaveNullsRecursive()] with [false], its
    own [mayHaveNulls()] is [false] and so is the flag of every field
    reader, a row for which [containsNull] is [true] forces the flag to be
    [true], on every reader and on a Variadic reader over such readers.
    The converse does not hold: the flag can be [true] at a row that holds
    no null. *)
Theorem mayHaveNullsRecursive_after_setup :
  (forall r r', setChildrenMayHaveNulls r = Returns r' ->
     mayHaveNullsRecursive r' = Returns (sourcesMayHaveNulls r)) /\
  (forall v v', Variadic.setChildrenMayHaveNulls v = Returns v' ->
     Variadic.mayHaveNullsRecursive v' =
       Returns (existsb sourcesMayHaveNulls (childReaders_ v))) /\
  (forall r r', sourcesSound r -> setChildrenMayHaveNulls r = Returns r' ->
     forall i, containsNull r' i = Returns true ->
       mayHaveNullsRecursive r' = Returns true) /\
  (forall v v', Forall sourcesSound (childReaders_ v) ->
     Variadic.setChildrenMayHaveNulls v = Returns v' ->
     forall i, Variadic.containsNull v' i = Returns true ->
       Variadic.mayHaveNullsRecursive v' = Returns true) /\
  (forall d, sourcesSound (ScalarReader d) <->
     (forall i, isNullAt d i = true -> mayHaveNulls d = true)) /\
  (forall d offsets lengths k v km vm,
     sourcesSound (MapReader d offsets lengths k v km vm) <->
     (forall i, isNullAt d i = true -> mayHaveNulls d = true) /\
     sourcesSound k /\ sourcesSound v) /\
  (forall d offsets lengths c vm,
     sourcesSound (ArrayReader d offsets lengths c vm) <->
     (forall i, isNullAt d i = true -> mayHaveNulls d = true) /\
     sourcesSound c) /\
  (forall d cs,
     sourcesSound (RowReader d cs) <->
     (forall i, isNullAt d i = true -> mayHaveNulls d = true) /\
     (decodedMayHaveNullsRecursive d = false ->
      mayHaveNulls d = false /\
      forall c, In c cs -> sourcesMayHaveNulls c = false) /\
     Forall sourcesSound cs).
Proof.
  assert (Hvariadic : forall v v',
            Variadic.setChildrenMayHaveNulls v = Returns v' ->
            Forall2 (fun c c' => setChildrenMayHaveNulls c = Returns c')
                    (childReaders_ v) (childReaders_ v')).
  { intros [cs] v' E. unfold Variadic.setChildrenMayHaveNulls in E. simpl in E.
    apply bind_Returns_inv in E. destruct E as [cs' [Hcs E]].
    injection E as <-. simpl. apply forEach_Returns_inv. exact Hcs. }
  split; [exact setChildrenMayHaveNulls_flag |].
  split.
  { intros v v' E. unfold Variadic.mayHaveNullsRecursive.
    apply anyOf_flags. apply Hvariadic. exact E. }
  split.
  { intros r r' Hs E i Hcn.
    rewrite (setChildrenMayHaveNulls_flag _ _ E).
    destruct (sourcesMayHaveNulls r) eqn:Hf; [reflexivity |].
    rewrite (no_flag_no_null r Hs Hf r' E i) in Hcn. discriminate. }
  split.
  { intros v v' Hs E i Hcn. apply Hvariadic in E.
    unfold Variadic.mayHaveNullsRecursive. rewrite (anyOf_flags _ _ E).
    f_equal. apply (any_null_any_flag _ _ i E Hs). exact Hcn. }
  split; [intros d; reflexivity |].
  split; [intros d offsets lengths k v km vm; reflexivity |].
  split; [intros d offsets lengths c vm; reflexivity |].
  intros d cs. simpl. unfold sourceSound.
  assert (Hall : (fix children (l : list VectorReader) : Prop :=
                    match l with
                    | [] => True
                    | c :: rest => sourcesSound c /\ children rest
                    end) cs <-> Forall sourcesSound cs).
  { induction cs as [| c rest IH]; simpl.
    - split; [constructor | trivial].
    - rewrite IH. split.
      + intros [Hc Hrest]. constructor; assumption.
      + intros H. inversion H; subst. split; assumption. }
  assert (Hex : existsb sourcesMayHaveNulls cs = false <->
                forall c, In c cs -> sourcesMayHaveNulls c = false).
  { split.
    - intros Hno c Hin.
      destruct (sourcesMayHaveNulls c) eqn:Hf; [| reflexivity].
      rewrite <- Hno. symmetry. apply existsb_exists. exists c. auto.
    - intros Hno. destruct (existsb sourcesMayHaveNulls cs) eqn:He;
        [| reflexivity].
      apply existsb_exists in He. destruct He as [c [Hin Hf]].
      rewrite (Hno c Hin) in Hf. discriminate. }
  rewrite Hall. split.
  - intros (Hd & Hrec & Hcs). split; [exact Hd | split; [| exact Hcs]].
    intros Hf. destruct (Hrec Hf) as [Hm Hno].
    split; [exact Hm | apply Hex; exact Hno].
  - intros (Hd & Hrec & Hcs). split; [exact Hd | split; [| exact Hcs]].
    intros Hf. destruct (Hrec Hf) as [Hm Hno].
    split; [exact Hm | apply Hex; exact Hno].
Qed.

(** The statement at the array column [[], [7, 8], [null]]: the flag is
    the OR of the sources' flags, and row 2, which contains a null, has it
    set; and at a Variadic reader over the scalar column [7, 8, null] and
    the key column of the test map, whose row 2 holds a null in the first
    argument. *)
Lemma mayHaveNullsRecursive_after_setup_witness :
  mayHaveNullsRecursive (afterSetup testArrayReader)
    = Returns (sourcesMayHaveNulls testArrayReader) /\
  sourcesSound testArrayReader /\
  containsNull (afterSetup testArrayReader) 2 = Returns true /\
  mayHaveNullsRecursive (afterSetup testArrayReader) = Returns true /\
  Variadic.containsNull (afterVariadicSetup testVariadicReader) 2
    = Returns true /\
  Variadic.mayHaveNullsRecursive (afterVariadicSetup testVariadicReader)
    = Returns true.
Proof.
  destruct mayHaveNullsRecursive_after_setup
    as (Hflag & _ & Hsound & Hvsound & _).
  assert (Hs : sourcesSound testArrayReader).
  { split; apply flatDecoded_sound. }
  assert (Hvs : Forall sourcesSound (childReaders_ testVariadicReader)).
  { constructor; [apply flatDecoded_sound |].
    constructor; [apply flatDecoded_sound | constructor]. }
  split; [apply Hflag; reflexivity |].
  split; [exact Hs |].
  split; [reflexivity |].
  split.
  - apply (Hsound testArrayReader (afterSetup testArrayReader) Hs eq_refl 2).
    reflexivity.
  - split; [reflexivity |].
    apply (Hvsound testVariadicReader (afterVariadicSetup testVariadicReader)
             Hvs eq_refl 2).
    reflexivity.
Defined.

(** C8 as stated fails.  In the array column [[], [7, 8], [null]] the setup
    phase returns and [mayHaveNullsRecursive()] is [true]; yet row 1 is not
    null, neither of its elements (positions 0 and 1) is null, and
    [containsNull(1)] is [false]. *)
Lemma mayHaveNullsRecursive_after_setup_counterexample :
  setChildrenMayHaveNulls testArrayReader = Returns (afterSetup testArrayReader) /\
  mayHaveNullsRecursive (afterSetup testArrayReader) = Returns true /\
  isNullAt testArrayRows 1 = false /\
  rawBuffer [0; 0; 2] (index testArrayRows 1) = 0 /\
  rawBuffer [0; 2; 1] (index testArrayRows 1) = 2 /\
  isNullAt testElements 0 = false /\
  isNullAt testElements 1 = false /\
  containsNull (afterSetup testArrayReader) 1 = Returns false.
Proof. repeat split. Qed.

(* ================================================================== *)
(** ** Optional accessors *)

Lemma value_of_present {T : Type} `{Reader T} (a : OptionalVectorValueAccessor.t T) :
  OptionalVectorValueAccessor.has_value a = true ->
  OptionalVectorValueAccessor.value a = Returns (read (OptionalVectorValueAccessor.reader_ a) (OptionalVectorValueAccessor.index_ a)).
Proof.
  intros Hv. unfold OptionalVectorValueAccessor.value. rewrite Hv. reflexivity.
Qed.

(** C5.  [a == b] on two optional accessors returns [true] when both are
    absent, [false] when exactly one is absent, and the comparison of the
    two underlying values when both are present; [a != b] returns the
    negation of [a == b].  Neither call trips the check in [value()]. *)
Theorem accessor_eq_cases {T : Type} `{Reader T} (a b : OptionalVectorValueAccessor.t T) :
  (OptionalVectorValueAccessor.has_value a = false -> OptionalVectorValueAccessor.has_value b = false ->
   OptionalVectorValueAccessor.eq a b = Returns true) /\
  (OptionalVectorValueAccessor.has_value a <> OptionalVectorValueAccessor.has_value b -> OptionalVectorValueAccessor.eq a b = Returns false) /\
  (OptionalVectorValueAccessor.has_value a = true -> OptionalVectorValueAccessor.has_value b = true ->
   exists x y, OptionalVectorValueAccessor.value a = Returns x /\ OptionalVectorValueAccessor.value b = Returns y /\
               OptionalVectorValueAccessor.eq a b = Returns (exec_eqb x y)) /\
  (exists r, OptionalVectorValueAccessor.eq a b = Returns r /\ OptionalVectorValueAccessor.neq a b = Returns (negb r)).
Proof.
  unfold OptionalVectorValueAccessor.neq, OptionalVectorValueAccessor.eq.
  destruct (OptionalVectorValueAccessor.has_value a) eqn:Ha; destruct (OptionalVectorValueAccessor.has_value b) eqn:Hb; simpl;
    try rewrite (value_of_present a Ha); try rewrite (value_of_present b Hb);
    simpl; repeat split; intros; try congruence; eauto.
Qed.

(** The value column of the tests, [4, 3, null, 10, null, 4, 4, null]:
    positions 2 and 4 are both absent and compare equal, positions 2 and 5
    differ in presence, positions 5 and 6 both hold 4, positions 0 and 1
    hold 4 and 3. *)
Lemma accessor_eq_cases_witness :
  OptionalVectorValueAccessor.eq (OptionalVectorValueAccessor.mk testValues 2) (OptionalVectorValueAccessor.mk testValues 4) = Returns true /\
  OptionalVectorValueAccessor.eq (OptionalVectorValueAccessor.mk testValues 2) (OptionalVectorValueAccessor.mk testValues 5) = Returns false /\
  (exists x y, OptionalVectorValueAccessor.value (OptionalVectorValueAccessor.mk testValues 5) = Returns x /\
               OptionalVectorValueAccessor.value (OptionalVectorValueAccessor.mk testValues 6) = Returns y /\
               OptionalVectorValueAccessor.eq (OptionalVectorValueAccessor.mk testValues 5) (OptionalVectorValueAccessor.mk testValues 6)
                 = Returns (exec_eqb x y)) /\
  OptionalVectorValueAccessor.eq (OptionalVectorValueAccessor.mk testValues 0) (OptionalVectorValueAccessor.mk testValues 1) = Returns false.
Proof.
  split; [| split; [| split]].
  - apply (accessor_eq_cases (OptionalVectorValueAccessor.mk testValues 2) (OptionalVectorValueAccessor.mk testValues 4));
      reflexivity.
  - apply (accessor_eq_cases (OptionalVectorValueAccessor.mk testValues 2) (OptionalVectorValueAccessor.mk testValues 5)).
    discriminate.
  - apply (accessor_eq_cases (OptionalVectorValueAccessor.mk testValues 5) (OptionalVectorValueAccessor.mk testValues 6));
      reflexivity.
  - reflexivity.
Defined.

(** C6.  Comparing an optional accessor with a native optional gives the
    same result with the operands in either order, for [==] and for [!=],
    whatever value type the comparison is enabled for: [true] when both are
    absent, [false] when exactly one is, and the comparison of the two
    values when both are present. *)
Theorem accessor_optional_eq_symmetric {T : Type} `{Reader T} {U : Type}
    (mixed_eqb : U -> exec_in_t -> bool) (a : OptionalVectorValueAccessor.t T) (o : option U) :
  OptionalVectorValueAccessor.eq_optional mixed_eqb a o = OptionalVectorValueAccessor.optional_eq mixed_eqb o a /\
  OptionalVectorValueAccessor.neq_optional mixed_eqb a o = OptionalVectorValueAccessor.optional_neq mixed_eqb o a /\
  OptionalVectorValueAccessor.optional_eq mixed_eqb o a =
    Returns (match o, OptionalVectorValueAccessor.has_value a with
             | None, false => true
             | Some u, true => mixed_eqb u (read (OptionalVectorValueAccessor.reader_ a) (OptionalVectorValueAccessor.index_ a))
             | _, _ => false
             end) /\
  OptionalVectorValueAccessor.optional_neq mixed_eqb o a =
    Returns (negb (match o, OptionalVectorValueAccessor.has_value a with
                   | None, false => true
                   | Some u, true =>
                       mixed_eqb u (read (OptionalVectorValueAccessor.reader_ a) (OptionalVectorValueAccessor.index_ a))
                   | _, _ => false
                   end)).
Proof.
  unfold OptionalVectorValueAccessor.neq_optional, OptionalVectorValueAccessor.optional_neq, OptionalVectorValueAccessor.eq_optional, OptionalVectorValueAccessor.optional_eq.
  destruct o as [u |]; destruct (OptionalVectorValueAccessor.has_value a) eqn:Ha; simpl;
    try rewrite (value_of_present a Ha); simpl; repeat split.
Qed.

(* ================================================================== *)
(** ** Array views *)

Lemma neq_subscript {T : Type} `{Reader T} (v : ArrayView.t T) (i j : Z) :
  IndexBasedIterator.neq
    (IndexBasedIterator.mk (ArrayView.subscript v i))
    (IndexBasedIterator.mk (ArrayView.subscript v j))
  = negb (i =? j).
Proof.
  unfold IndexBasedIterator.neq. simpl. unfold OptionalVectorValueAccessor.index. simpl. f_equal.
  destruct (Z.eqb_spec i j) as [-> | Hne].
  - apply Z.eqb_refl.
  - apply Z.eqb_neq. lia.
Qed.

Lemma pre_incr_subscript {T : Type} `{Reader T} (v : ArrayView.t T) (i : Z) :
  IndexBasedIterator.pre_incr (IndexBasedIterator.mk (ArrayView.subscript v i))
  = IndexBasedIterator.mk (ArrayView.subscript v (i + 1)).
Proof.
  unfold IndexBasedIterator.pre_incr, ArrayView.subscript. simpl.
  unfold OptionalVectorValueAccessor.incrementIndex. simpl. do 2 f_equal. lia.
Qed.

Lemma visit_indexedFrom {T : Type} `{Reader T} (v : ArrayView.t T) (count : nat) :
  forall (i : Z) (fuel : nat),
    (count < fuel)%nat ->
    IndexBasedIterator.visit fuel
      (IndexBasedIterator.mk (ArrayView.subscript v i))
      (IndexBasedIterator.mk (ArrayView.subscript v (i + Z.of_nat count)))
    = Some (ArrayView.indexedFrom v count i).
Proof.
  induction count as [| count IH]; intros i fuel Hfuel;
    (destruct fuel as [| fuel]; [lia |]);
    cbn [IndexBasedIterator.visit ArrayView.indexedFrom];
    rewrite neq_subscript.
  - replace (i =? i + Z.of_nat 0) with true
      by (symmetry; apply Z.eqb_eq; lia).
    reflexivity.
  - replace (i =? i + Z.of_nat (S count)) with false
      by (symmetry; apply Z.eqb_neq; lia).
    cbn [negb]. rewrite pre_incr_subscript.
    replace (i + Z.of_nat (S count)) with (i + 1 + Z.of_nat count) by lia.
    rewrite IH by lia. reflexivity.
Qed.

Lemma indexedFrom_map {T : Type} `{Reader T} (v : ArrayView.t T) (count : nat) :
  forall (i : Z),
    ArrayView.indexedFrom v count i =
    map (fun k => OptionalVectorValueAccessor.mk (ArrayView.reader_ v)
                    (ArrayView.offset_ v + (i + Z.of_nat k)))
        (seq 0 count).
Proof.
  induction count as [| count IH]; intros i; [reflexivity |].
  cbn [ArrayView.indexedFrom seq map]. rewrite IH, <- seq_shift, map_map.
  f_equal.
  - unfold ArrayView.subscript. f_equal. simpl. lia.
  - apply map_ext. intros k. f_equal. lia.
Qed.

(** C7.  For a view built from [(reader, offset, length)] with a length
    that is an element count ([0 <= length] within [vector_size_t]):
    [size()] is [length]; [operator[](i)] and [at(i)] are the accessor at
    [offset + i] of the reader; [begin()] and [end()] sit at [offset] and
    [offset + length]; the indexed loop visits the accessors at
    [offset], ..., [offset + length - 1] in that order; and the iterator
    loop and the range-for loop end and visit exactly the same list. *)
Theorem ArrayView_access {T : Type} `{Reader T}
    (reader : T) (offset length : vector_size_t) :
  0 <= length < 2 ^ 31 ->
  let v := ArrayView.mk reader offset length in
  ArrayView.size v = length /\
  (forall i, ArrayView.subscript v i = OptionalVectorValueAccessor.mk reader (offset + i) /\
             ArrayView.at_ v i = OptionalVectorValueAccessor.mk reader (offset + i)) /\
  IndexBasedIterator.deref (ArrayView.begin_ v) = OptionalVectorValueAccessor.mk reader offset /\
  IndexBasedIterator.deref (ArrayView.end_ v) = OptionalVectorValueAccessor.mk reader (offset + length) /\
  ArrayView.indexedLoop v =
    map (fun k => OptionalVectorValueAccessor.mk reader (offset + Z.of_nat k))
        (seq 0 (Z.to_nat length)) /\
  List.length (ArrayView.indexedLoop v) = Z.to_nat length /\
  (forall fuel, (Z.to_nat length < fuel)%nat ->
     ArrayView.iteratorLoop fuel v = Some (ArrayView.indexedLoop v) /\
     ArrayView.rangeForLoop fuel v = Some (ArrayView.indexedLoop v)).
Proof.
  intros Hlen v.
  assert (Hsize : ArrayView.size v = length).
  { unfold ArrayView.size, to_size_t. simpl. apply Z.mod_small. lia. }
  assert (Hsub : forall i, ArrayView.subscript v i = OptionalVectorValueAccessor.mk reader (offset + i)).
  { intros i. unfold ArrayView.subscript. simpl. f_equal. lia. }
  assert (Hloop : ArrayView.indexedLoop v =
                  map (fun k => OptionalVectorValueAccessor.mk reader (offset + Z.of_nat k))
                      (seq 0 (Z.to_nat length))).
  { unfold ArrayView.indexedLoop. rewrite Hsize, indexedFrom_map. reflexivity. }
  split; [exact Hsize |].
  split; [intros i; split; [apply Hsub | apply Hsub] |].
  split; [reflexivity |].
  split; [reflexivity |].
  split; [exact Hloop |].
  split; [rewrite Hloop, length_map, length_seq; reflexivity |].
  intros fuel Hfuel.
  assert (Hit : ArrayView.iteratorLoop fuel v = Some (ArrayView.indexedLoop v)).
  { unfold ArrayView.iteratorLoop, ArrayView.indexedLoop. rewrite Hsize.
    pose proof (visit_indexedFrom v (Z.to_nat length) 0 fuel Hfuel) as Hv.
    rewrite !Hsub in Hv. unfold ArrayView.begin_, ArrayView.end_. simpl.
    replace (offset + (0 + Z.of_nat (Z.to_nat length))) with (offset + length)
      in Hv by lia.
    replace (offset + 0) with offset in Hv by lia.
    exact Hv. }
  split; [exact Hit | exact Hit].
Qed.

(** Row 1 of the test map's value column seen as an array view: offset 0,
    length 3. *)
Lemma ArrayView_access_witness :
  ArrayView.size (ArrayView.mk testValues 0 3) = 3 /\
  ArrayView.indexedLoop (ArrayView.mk testValues 0 3) =
    [OptionalVectorValueAccessor.mk testValues 0; OptionalVectorValueAccessor.mk testValues 1; OptionalVectorValueAccessor.mk testValues 2] /\
  ArrayView.iteratorLoop 4 (ArrayView.mk testValues 0 3) =
    Some (ArrayView.indexedLoop (ArrayView.mk testValues 0 3)) /\
  ArrayView.rangeForLoop 4 (ArrayView.mk testValues 0 3) =
    Some (ArrayView.indexedLoop (ArrayView.mk testValues 0 3)).
Proof.
  assert (Hlen : 0 <= 3 < 2 ^ 31) by (split; [discriminate | reflexivity]).
  destruct (ArrayView_access testValues 0 3 Hlen)
    as (Hsize & _ & _ & _ & Hloop & _ & Hiter).
  split; [exact Hsize | split; [exact Hloop |]].
  apply (Hiter 4%nat). apply Nat.lt_succ_diag_r.
Defined.

(** C10.  [ArrayView::mayHaveNulls()] returns [false] for every view,
    whatever the reader, the offset and the size, and whether or not the
    window holds a null element: the view over positions 0 to 2 of the test
    value column, [4, 3, null], has no value at position 2 and still
    reports [false]. *)
Theorem ArrayView_mayHaveNulls_false :
  (forall (T : Type) (R : Reader T) (v : ArrayView.t T),
     ArrayView.mayHaveNulls v = false) /\
  (let v := ArrayView.mk testValues 0 3 in
   ArrayView.size v = 3 /\
   OptionalVectorValueAccessor.has_value (ArrayView.subscript v 2) = false /\
   ArrayView.mayHaveNulls v = false).
Proof.
  split.
  - intros T R v. reflexivity.
  - cbv zeta. split; [reflexivity | split; reflexivity].
Qed.

(* ================================================================== *)
(** ** Map view elements *)

(** C9.  [incrementIndex()] advances the element's own index, the key
    accessor's index and the value accessor's index by one each; after any
    number of calls on an element built at index [i] the three indices are
    the same. *)
Theorem MapView_Element_lockstep {K V : Type} `{Reader K} `{Reader V} :
  (forall e : @MapView.Element K V,
     MapView.index (MapView.incrementIndex e) = MapView.index e + 1 /\
     MapView.key_index (MapView.first (MapView.incrementIndex e))
       = MapView.key_index (MapView.first e) + 1 /\
     OptionalVectorValueAccessor.index (MapView.second (MapView.incrementIndex e))
       = OptionalVectorValueAccessor.index (MapView.second e) + 1) /\
  (forall (keyReader : K) (valueReader : V) (i : vector_size_t) (n : nat),
     let e := Nat.iter n MapView.incrementIndex
                (MapView.newElement keyReader valueReader i) in
     MapView.index e = i + Z.of_nat n /\
     MapView.key_index (MapView.first e) = i + Z.of_nat n /\
     OptionalVectorValueAccessor.index (MapView.second e) = i + Z.of_nat n).
Proof.
  split.
  - intros e. repeat split.
  - intros keyReader valueReader i n.
    induction n as [| n IH].
    + simpl. repeat split; lia.
    + cbn zeta in IH |- *. rewrite Nat.iter_succ.
      set (e := Nat.iter n MapView.incrementIndex
                  (MapView.newElement keyReader valueReader i)) in *.
      destruct IH as (Hi & Hk & Hv).
      unfold MapView.index, MapView.key_index, OptionalVectorValueAccessor.index in *.
      simpl. rewrite Hi, Hk, Hv. repeat split; lia.
Qed.

(* ================================================================== *)
(** * Further properties of the readers *)

(** ** When the setup phase fails, and what it changes *)

Lemma forEach_setup_outcome (cs : list VectorReader) :
  Forall (fun c =>
            if hasGeneric c
            then setChildrenMayHaveNulls c = Unsupported msgGeneric
            else exists c', setChildrenMayHaveNulls c = Returns c') cs ->
  if existsb hasGeneric cs
  then forEach setChildrenMayHaveNulls cs = Unsupported msgGeneric
  else exists cs', forEach setChildrenMayHaveNulls cs = Returns cs'.
Proof.
  induction 1 as [| c rest Hc _ IH]; simpl; [eauto |].
  destruct (hasGeneric c); simpl.
  - rewrite Hc. reflexivity.
  - destruct Hc as [c' ->]. simpl.
    destruct (existsb hasGeneric rest).
    + rewrite IH. reflexivity.
    + destruct IH as [rest' ->]. simpl. eauto.
Qed.

Lemma setup_outcome (r : VectorReader) :
  if hasGeneric r
  then setChildrenMayHaveNulls r = Unsupported msgGeneric
  else exists r', setChildrenMayHaveNulls r = Returns r'.
Proof.
  induction r as [d | d offsets lengths k v km vm IHk IHv
                  | d offsets lengths c vm IHc | d cs IHcs | d]
    using VectorReader_ind; simpl hasGeneric.
  - simpl. eauto.
  - destruct (hasGeneric k); simpl.
    + rewrite IHk. reflexivity.
    + destruct IHk as [k' Hk]. rewrite Hk. simpl.
      destruct (hasGeneric v).
      * rewrite IHv. reflexivity.
      * destruct IHv as [v' Hv]. rewrite Hv. simpl.
        destruct (prepared_mayHaveNullsRecursive_total k'
                    (setChildrenMayHaveNulls_prepared _ _ Hk)) as [kf ->].
        destruct (prepared_mayHaveNullsRecursive_total v'
                    (setChildrenMayHaveNulls_prepared _ _ Hv)) as [vf ->].
        simpl. eauto.
  - destruct (hasGeneric c); simpl.
    + rewrite IHc. reflexivity.
    + destruct IHc as [c' Hc]. rewrite Hc. simpl.
      destruct (prepared_mayHaveNullsRecursive_total c'
                  (setChildrenMayHaveNulls_prepared _ _ Hc)) as [vf ->].
      simpl. eauto.
  - pose proof (forEach_setup_outcome cs IHcs) as Hcs. simpl.
    destruct (existsb hasGeneric cs).
    + rewrite Hcs. reflexivity.
    + destruct Hcs as [cs' ->]. simpl. eauto.
  - reflexivity.
Qed.

(** X3.  [setChildrenMayHaveNulls()] never fails a debug check.  It throws
    the unsupported-operation error exactly when a Generic reader occurs
    somewhere in the tree (under a Map, Array or Row reader at any depth,
    or among the arguments of a Variadic reader), and returns otherwise. *)
Theorem setup_fails_exactly_on_Generic :
  (forall r,
     (hasGeneric r = true ->
      setChildrenMayHaveNulls r = Unsupported msgGeneric) /\
     (hasGeneric r = false ->
      exists r', setChildrenMayHaveNulls r = Returns r') /\
     (forall m, setChildrenMayHaveNulls r <> DCheckFailed m)) /\
  (forall v,
     (existsb hasGeneric (childReaders_ v) = true ->
      Variadic.setChildrenMayHaveNulls v = Unsupported msgGeneric) /\
     (existsb hasGeneric (childReaders_ v) = false ->
      exists v', Variadic.setChildrenMayHaveNulls v = Returns v') /\
     (forall m, Variadic.setChildrenMayHaveNulls v <> DCheckFailed m)).
Proof.
  split.
  - intros r. pose proof (setup_outcome r) as H.
    destruct (hasGeneric r); repeat split; intros; try discriminate.
    + exact H.
    + rewrite H. discriminate.
    + exact H.
    + destruct H as [r' ->]. discriminate.
  - intros [cs]. simpl.
    assert (H : if existsb hasGeneric cs
                then forEach setChildrenMayHaveNulls cs = Unsupported msgGeneric
                else exists cs', forEach setChildrenMayHaveNulls cs = Returns cs').
    { apply forEach_setup_outcome. apply Forall_forall. intros c _.
      apply setup_outcome. }
    unfold Variadic.setChildrenMayHaveNulls. simpl.
    destruct (existsb hasGeneric cs); repeat split; intros; try discriminate.
    + rewrite H. reflexivity.
    + rewrite H. discriminate.
    + destruct H as [cs' ->]. simpl. eauto.
    + destruct H as [cs' ->]. discriminate.
Qed.

(** A Row reader with a Generic field inside an Array field cannot be set
    up; the map column of the tests can. *)
Lemma setup_fails_exactly_on_Generic_witness :
  setChildrenMayHaveNulls
    (RowReader testMapRows
       [testMapReader;
        newArrayReader testArrayRows (rawBuffer [0; 0; 2]) (rawBuffer [0; 2; 1])
          (GenericReader testElements)])
    = Unsupported msgGeneric /\
  (exists r', setChildrenMayHaveNulls testMapReader = Returns r').
Proof.
  destruct setup_fails_exactly_on_Generic as [Hr _]. split.
  - apply Hr. reflexivity.
  - apply Hr. reflexivity.
Defined.

Lemma forEach_setup_eraseMemo (cs : list VectorReader) :
  Forall (fun c => setChildrenMayHaveNulls (eraseMemo c)
                   = setChildrenMayHaveNulls c) cs ->
  forEach setChildrenMayHaveNulls (map eraseMemo cs)
  = forEach setChildrenMayHaveNulls cs.
Proof.
  induction 1 as [| c rest Hc _ IH]; simpl; [reflexivity |].
  rewrite Hc, IH. reflexivity.
Qed.

Lemma setup_eraseMemo (r : VectorReader) :
  setChildrenMayHaveNulls (eraseMemo r) = setChildrenMayHaveNulls r.
Proof.
  induction r as [d | d offsets lengths k v km vm IHk IHv
                  | d offsets lengths c vm IHc | d cs IHcs | d]
    using VectorReader_ind; simpl.
  - reflexivity.
  - rewrite IHk, IHv. reflexivity.
  - rewrite IHc. reflexivity.
  - rewrite (forEach_setup_eraseMemo cs IHcs). reflexivity.
  - reflexivity.
Qed.

Lemma setup_preserves_eraseMemo (r : VectorReader) :
  forall r', setChildrenMayHaveNulls r = Returns r' ->
    eraseMemo r' = eraseMemo r.
Proof.
  induction r as [d | d offsets lengths k v km vm IHk IHv
                  | d offsets lengths c vm IHc | d cs IHcs | d]
    using VectorReader_ind; intros r' E.
  - injection E as <-. reflexivity.
  - apply setChildrenMayHaveNulls_Map_inv in E.
    destruct E as (k' & v' & kf & vf & Hk & Hv & _ & _ & ->).
    simpl. rewrite (IHk _ Hk), (IHv _ Hv). reflexivity.
  - apply setChildrenMayHaveNulls_Array_inv in E.
    destruct E as (c' & vf & Hc & _ & ->).
    simpl. rewrite (IHc _ Hc). reflexivity.
  - apply setChildrenMayHaveNulls_Row_inv in E.
    destruct E as (cs' & Hcs & ->). simpl. f_equal.
    induction Hcs as [| c c' rest rest' Hc _ IH]; [reflexivity |].
    inversion IHcs as [| ? ? Hhead Htail]; subst. simpl.
    rewrite (Hhead _ Hc), (IH Htail). reflexivity.
  - discriminate.
Qed.

(** X4.  The setup phase reads no memo and writes nothing but memos: its
    outcome is the same whatever the memo slots held before the call, and
    the reader it returns differs from the one it was given in memo slots
    only (same decoded sources, offsets, lengths and children, hence the
    same [isSet] on every row). *)
Theorem setup_touches_only_memo :
  (forall r, setChildrenMayHaveNulls (eraseMemo r) = setChildrenMayHaveNulls r) /\
  (forall r r', setChildrenMayHaveNulls r = Returns r' ->
     eraseMemo r' = eraseMemo r /\
     decodedOf r' = decodedOf r /\
     (forall i, readerIsSet r' i = readerIsSet r i)).
Proof.
  split; [exact setup_eraseMemo |].
  intros r r' E.
  pose proof (setup_preserves_eraseMemo r r' E) as He.
  assert (Hd : decodedOf r' = decodedOf r).
  { destruct r, r'; simpl in He; try discriminate; injection He; auto. }
  split; [exact He | split; [exact Hd |]].
  intros i. unfold readerIsSet. rewrite Hd. reflexivity.
Qed.

(** The map column of the tests: setting up the reader a first setup left
    gives the same result as setting up the fresh one, and the result has
    the fresh reader's shape. *)
Lemma setup_touches_only_memo_witness :
  setChildrenMayHaveNulls (eraseMemo (afterSetup testMapReader))
    = setChildrenMayHaveNulls (afterSetup testMapReader) /\
  eraseMemo (afterSetup testMapReader) = eraseMemo testMapReader /\
  decodedOf (afterSetup testMapReader) = decodedOf testMapReader.
Proof.
  destruct setup_touches_only_memo as [Hin Hout].
  split; [apply Hin |].
  destruct (Hout testMapReader (afterSetup testMapReader) eq_refl)
    as (He & Hd & _).
  split; [exact He | exact Hd].
Defined.

(** ** [containsNull] against the null bits *)

Lemma existsFrom_true (f : vector_size_t -> bool) (count : nat) :
  forall start,
    existsFrom f count start = true <->
    exists j, start <= j < start + Z.of_nat count /\ f j = true.
Proof.
  induction count as [| count IH]; intros start; simpl.
  - split; [discriminate | intros [j [Hj _]]; lia].
  - rewrite orb_true_iff, IH. split.
    + intros [Hf | [j [Hj Hf]]].
      * exists start. split; [lia | exact Hf].
      * exists j. split; [lia | exact Hf].
    + intros [j [Hj Hf]].
      destruct (Z.eq_dec j start) as [-> | Hne]; [left; exact Hf |].
      right. exists j. split; [lia | exact Hf].
Qed.

Lemma existsInRange_true (f : vector_size_t -> bool) (s e : vector_size_t) :
  existsInRange f s e = true <-> exists j, s <= j < e /\ f j = true.
Proof.
  unfold existsInRange. rewrite existsFrom_true.
  split; intros [j [Hj Hf]]; exists j; (split; [lia | exact Hf]).
Qed.

Lemma existsInRange_false (f : vector_size_t -> bool) (s e : vector_size_t) :
  (forall j, f j = false) -> existsInRange f s e = false.
Proof.
  intros Hf. destruct (existsInRange f s e) eqn:E; [| reflexivity].
  apply existsInRange_true in E. destruct E as [j [_ Hj]].
  rewrite Hf in Hj. discriminate.
Qed.

Lemma containsNullFrom_exact (cn : vector_size_t -> Outcome bool)
    (f : vector_size_t -> bool) (count : nat) :
  (forall j, cn j = Returns (f j)) ->
  forall start, containsNullFrom cn count start = Returns (existsFrom f count start).
Proof.
  intros Hcn. induction count as [| count IH]; intros start; simpl;
    [reflexivity |].
  rewrite Hcn. simpl. destruct (f start); [reflexivity | apply IH].
Qed.

Lemma containsNullRange_exact (r : VectorReader) (f : vector_size_t -> bool)
    (s e : vector_size_t) :
  prepared r = true ->
  (forall j, containsNull r j = Returns (f j)) ->
  containsNullRange r s e = Returns (existsInRange f s e).
Proof.
  intros Hp Hcn. rewrite containsNullRange_prepared by exact Hp.
  apply containsNullFrom_exact. exact Hcn.
Qed.

Lemma containsNull_hasNull (r : VectorReader) :
  sourcesSound r ->
  forall r', setChildrenMayHaveNulls r = Returns r' ->
  forall i, containsNull r' i = Returns (hasNull r i).
Proof.
  induction r as [d | d offsets lengths k v km vm IHk IHv
                  | d offsets lengths c vm IHc | d cs IHcs | d]
    using VectorReader_ind; intros Hs r' E i.
  - injection E as <-. reflexivity.
  - apply setChildrenMayHaveNulls_Map_inv in E.
    destruct E as (k' & v' & kf & vf & Hk & Hv & Hkf & Hvf & ->).
    destruct Hs as (_ & Hsk & Hsv).
    pose proof (IHk Hsk _ Hk) as Ek. pose proof (IHv Hsv _ Hv) as Ev.
    rewrite (setChildrenMayHaveNulls_flag _ _ Hk) in Hkf.
    rewrite (setChildrenMayHaveNulls_flag _ _ Hv) in Hvf.
    injection Hkf as <-. injection Hvf as <-.
    rewrite containsNull_Map. cbn [hasNull]. cbv zeta.
    rewrite (containsNullRange_exact k' (hasNull k))
      by (eauto using setChildrenMayHaveNulls_prepared).
    rewrite (containsNullRange_exact v' (hasNull v))
      by (eauto using setChildrenMayHaveNulls_prepared).
    set (ek := existsInRange (hasNull k) _ _).
    set (ev := existsInRange (hasNull v) _ _).
    assert (Hek : andThen (sourcesMayHaveNulls k) (Returns ek) = Returns ek).
    { destruct (sourcesMayHaveNulls k) eqn:Hf; [reflexivity |].
      unfold andThen. f_equal. symmetry. apply existsInRange_false.
      intros j. pose proof (no_flag_no_null k Hsk Hf _ Hk j) as Hn.
      rewrite Ek in Hn. injection Hn as ->. reflexivity. }
    assert (Hev : andThen (sourcesMayHaveNulls v) (Returns ev) = Returns ev).
    { destruct (sourcesMayHaveNulls v) eqn:Hf; [reflexivity |].
      unfold andThen. f_equal. symmetry. apply existsInRange_false.
      intros j. pose proof (no_flag_no_null v Hsv Hf _ Hv j) as Hn.
      rewrite Ev in Hn. injection Hn as ->. reflexivity. }
    rewrite Hek, Hev. unfold orElse. simpl.
    destruct (isNullAt d i), ek; reflexivity.
  - apply setChildrenMayHaveNulls_Array_inv in E.
    destruct E as (c' & vf & Hc & Hvf & ->).
    destruct Hs as (_ & Hsc).
    pose proof (IHc Hsc _ Hc) as Ec.
    rewrite (setChildrenMayHaveNulls_flag _ _ Hc) in Hvf.
    injection Hvf as <-.
    rewrite containsNull_Array. cbn [hasNull]. cbv zeta.
    rewrite (containsNullRange_exact c' (hasNull c))
      by (eauto using setChildrenMayHaveNulls_prepared).
    set (ec := existsInRange (hasNull c) _ _).
    assert (Hec : andThen (sourcesMayHaveNulls c) (Returns ec) = Returns ec).
    { destruct (sourcesMayHaveNulls c) eqn:Hf; [reflexivity |].
      unfold andThen. f_equal. symmetry. apply existsInRange_false.
      intros j. pose proof (no_flag_no_null c Hsc Hf _ Hc j) as Hn.
      rewrite Ec in Hn. injection Hn as ->. reflexivity. }
    rewrite Hec. unfold orElse. simpl.
    destruct (isNullAt d i); reflexivity.
  - apply setChildrenMayHaveNulls_Row_inv in E.
    destruct E as (cs' & Hcs & ->).
    destruct Hs as (_ & _ & Hall).
    rewrite containsNull_Row. cbn [hasNull].
    destruct (isNullAt d i); [reflexivity |]. simpl.
    generalize (index d i) as j. intros j.
    induction Hcs as [| c c' rest rest' Hc _ IH]; [reflexivity |].
    inversion IHcs as [| ? ? Hhead Htail]; subst.
    destruct Hall as [Hsc Hsrest].
    simpl. rewrite (Hhead Hsc _ Hc j). unfold orElse. simpl.
    destruct (hasNull c j); [reflexivity |]. apply IH; assumption.
  - discriminate.
Qed.



(** ** Row and Variadic readers after the setup phase *)

Lemma prepared_children_total (cs : list VectorReader) (j : vector_size_t) :
  forallb prepared cs = true ->
  Forall (fun c => exists b, containsNull c j = Returns b) cs.
Proof.
  intros Hp. apply Forall_forall. intros c Hin.
  apply prepared_containsNull_total.
  rewrite forallb_forall in Hp. apply Hp. exact Hin.
Qed.

Lemma forEach_setup_prepared (cs cs' : list VectorReader) :
  forEach setChildrenMayHaveNulls cs = Returns cs' ->
  forallb prepared cs' = true.
Proof.
  intros E. apply forEach_Returns_inv in E.
  induction E as [| c c' rest rest' Hc _ IH]; [reflexivity |].
  simpl. rewrite (setChildrenMayHaveNulls_prepared _ _ Hc). exact IH.
Qed.

(** X6.  Once [setChildrenMayHaveNulls()] has returned on a Row reader,
    [containsNull(i)] returns, and it returns [true] exactly when the row
    is null at [i] or some field reader reports [containsNull] at the
    decoded index of [i]; the fields are asked at [decoded_.index(i)], not
    at [i].  [mayHaveNullsRecursive()] is what the row's decoded source
    answers, whatever the fields hold. *)
Theorem Row_containsNull_after_setup d cs r' :
  setChildrenMayHaveNulls (RowReader d cs) = Returns r' ->
  exists cs',
    r' = RowReader d cs' /\
    Forall2 (fun c c' => setChildrenMayHaveNulls c = Returns c') cs cs' /\
    mayHaveNullsRecursive r' = Returns (decodedMayHaveNullsRecursive d) /\
    forall i,
      (exists b, containsNull r' i = Returns b) /\
      (containsNull r' i = Returns true <->
         isNullAt d i = true \/
         Exists (fun c' => containsNull c' (index d i) = Returns true) cs').
Proof.
  intros E.
  pose proof (setChildrenMayHaveNulls_prepared _ _ E) as Hp.
  apply setChildrenMayHaveNulls_Row_inv in E.
  destruct E as (cs' & Hcs & ->).
  exists cs'. split; [reflexivity | split; [exact Hcs | split; [reflexivity |]]].
  intros i. split.
  - apply prepared_containsNull_total. exact Hp.
  - rewrite containsNull_Row. simpl in Hp.
    destruct (isNullAt d i).
    + split; [intros _; left; reflexivity | reflexivity].
    + rewrite (anyOf_Returns_true _ cs' (prepared_children_total cs' _ Hp)).
      split; [intros H; right; exact H | intros [H | H]; [discriminate | exact H]].
Qed.

(** The row column over the scalar column [7, 8, null] and the array
    column [[], [7, 8], [null]]: row 2 has a null in its first field. *)
Lemma Row_containsNull_after_setup_witness :
  setChildrenMayHaveNulls testRowReader = Returns (afterSetup testRowReader) /\
  containsNull (afterSetup testRowReader) 2 = Returns true.
Proof.
  split; [reflexivity |].
  destruct (Row_containsNull_after_setup
              (flatDecoded [Some 0; Some 0; Some 0])
              [ScalarReader testElements; testArrayReader]
              (afterSetup testRowReader) eq_refl)
    as (cs' & Heq & _ & _ & Hspec).
  cbv in Heq. injection Heq as <-.
  apply (Hspec 2). right. left. reflexivity.
Defined.

(** X7.  Once [setChildrenMayHaveNulls()] has returned on a Variadic
    reader, both forms of [containsNull] return.  [containsNull(i)] is
    [true] exactly when some argument reader reports [containsNull(i)];
    [containsNull(start, end)], which asks each argument for the whole
    range in turn, is [true] exactly when [containsNull(j)] is [true] for
    some [j] of the range. *)
Theorem Variadic_containsNull_after_setup (v v' : VariadicReader) :
  Variadic.setChildrenMayHaveNulls v = Returns v' ->
  (forall i, exists b, Variadic.containsNull v' i = Returns b) /\
  (forall i,
     Variadic.containsNull v' i = Returns true <->
     Exists (fun c => containsNull c i = Returns true) (childReaders_ v')) /\
  (forall s e, exists b, Variadic.containsNullRange v' s e = Returns b) /\
  (forall s e,
     Variadic.containsNullRange v' s e = Returns true <->
     exists j, s <= j < e /\ Variadic.containsNull v' j = Returns true).
Proof.
  destruct v as [cs]. unfold Variadic.setChildrenMayHaveNulls. simpl.
  intros E. apply bind_Returns_inv in E. destruct E as [cs' [Hcs E]].
  injection E as <-. apply forEach_setup_prepared in Hcs.
  unfold Variadic.containsNull, Variadic.containsNullRange. simpl.
  assert (Hpoint : forall i,
            Forall (fun c => exists b, containsNull c i = Returns b) cs').
  { intros i. apply prepared_children_total. exact Hcs. }
  assert (Hrange : forall s e,
            Forall (fun c => exists b, containsNullRange c s e = Returns b) cs').
  { intros s e. apply Forall_forall. intros c Hin.
    rewrite forallb_forall in Hcs.
    apply containsNullRange_total; [apply Hcs; exact Hin |].
    apply prepared_containsNull_total. apply Hcs. exact Hin. }
  split; [intros i; apply anyOf_total; apply Hpoint |].
  split; [intros i; apply anyOf_Returns_true; apply Hpoint |].
  split; [intros s e; apply anyOf_total; apply Hrange |].
  intros s e. rewrite (anyOf_Returns_true _ cs' (Hrange s e)).
  rewrite Exists_exists. split.
  - intros [c [Hin Hc]].
    rewrite forallb_forall in Hcs.
    apply containsNullRange_Returns_true in Hc;
      [| apply Hcs; exact Hin
       | apply prepared_containsNull_total; apply Hcs; exact Hin].
    destruct Hc as [j [Hj Hc]]. exists j. split; [exact Hj |].
    apply (anyOf_Returns_true _ cs' (Hpoint j)).
    apply Exists_exists. exists c. split; assumption.
  - intros [j [Hj Hany]].
    apply (anyOf_Returns_true _ cs' (Hpoint j)) in Hany.
    apply Exists_exists in Hany. destruct Hany as [c [Hin Hc]].
    exists c. split; [exact Hin |].
    rewrite forallb_forall in Hcs.
    apply containsNullRange_Returns_true;
      [apply Hcs; exact Hin
      | apply prepared_containsNull_total; apply Hcs; exact Hin |].
    exists j. split; assumption.
Qed.

(** Two variadic arguments, the first with a null at row 2: the range
    [0, 3) contains a null because row 2 does. *)
Lemma Variadic_containsNull_after_setup_witness :
  Variadic.setChildrenMayHaveNulls testVariadicReader
    = Returns (afterVariadicSetup testVariadicReader) /\
  Variadic.containsNull (afterVariadicSetup testVariadicReader) 2 = Returns true /\
  Variadic.containsNullRange (afterVariadicSetup testVariadicReader) 0 3
    = Returns true.
Proof.
  split; [reflexivity |].
  destruct (Variadic_containsNull_after_setup testVariadicReader
              (afterVariadicSetup testVariadicReader) eq_refl)
    as (_ & Hpoint & _ & Hrange).
  assert (H2 : Variadic.containsNull (afterVariadicSetup testVariadicReader) 2
               = Returns true).
  { apply Hpoint. left. reflexivity. }
  split; [exact H2 |].
  apply Hrange. exists 2. split; [| exact H2].
  split; [discriminate | reflexivity].
Defined.

(** ** The range form of [containsNull] *)

(** X8.  Once [setChildrenMayHaveNulls()] has returned,
    [containsNull(start, end)] is [true] exactly when [containsNull(j)] is
    [true] for some [start <= j < end]; so an empty or reversed range gives
    [false], and a range cut at any point in between holds a null exactly
    when one of the two parts does. *)
Theorem containsNullRange_after_setup (r r' : VectorReader) :
  setChildrenMayHaveNulls r = Returns r' ->
  (forall s e,
     containsNullRange r' s e = Returns true <->
     exists j, s <= j < e /\ containsNull r' j = Returns true) /\
  (forall s e, e <= s -> containsNullRange r' s e = Returns false) /\
  (forall s m e, s <= m <= e ->
     (containsNullRange r' s e = Returns true <->
      containsNullRange r' s m = Returns true \/
      containsNullRange r' m e = Returns true)).
Proof.
  intros E. apply setChildrenMayHaveNulls_prepared in E.
  pose proof (prepared_containsNull_total r' E) as Hcn.
  assert (Hchar : forall s e,
            containsNullRange r' s e = Returns true <->
            exists j, s <= j < e /\ containsNull r' j = Returns true).
  { intros s e. apply containsNullRange_Returns_true; assumption. }
  split; [exact Hchar | split].
  - intros s e Hle. rewrite containsNullRange_prepared by exact E.
    apply containsNullLoop_empty. exact Hle.
  - intros s m e Hm. rewrite !Hchar. split.
    + intros [j [Hj Hc]].
      destruct (Z_lt_ge_dec j m) as [Hlt | Hge].
      * left. exists j. split; [lia | exact Hc].
      * right. exists j. split; [lia | exact Hc].
    + intros [[j [Hj Hc]] | [j [Hj Hc]]]; exists j; (split; [lia | exact Hc]).
Qed.

(** The value column of the tests, [4, 3, null, 10, null, 4, 4, null]:
    the range [0, 5) holds a null, found in its part [2, 5). *)
Lemma containsNullRange_after_setup_witness :
  containsNullRange (ScalarReader testValues) 3 3 = Returns false /\
  (containsNullRange (ScalarReader testValues) 0 5 = Returns true <->
   containsNullRange (ScalarReader testValues) 0 2 = Returns true \/
   containsNullRange (ScalarReader testValues) 2 5 = Returns true).
Proof.
  destruct (containsNullRange_after_setup (ScalarReader testValues)
              (ScalarReader testValues) eq_refl) as (_ & Hempty & Hsplit).
  split.
  - apply Hempty. discriminate.
  - apply Hsplit. split; discriminate.
Defined.

(* ================================================================== *)
(** * Further properties of the views *)

(** ** Walking a map view *)

Lemma MapView_subscript_eq {K V : Type}  (v : MapView.t K V) (i : Z) :
  MapView.subscript v i
  = MapView.newElement (MapView.keyReader_ v) (MapView.valueReader_ v)
      (MapView.offset_ v + i).
Proof.
  unfold MapView.subscript. f_equal. lia.
Qed.

Lemma MapView_neq_subscript {K V : Type} (v : MapView.t K V) (i j : Z) :
  IndexBasedIterator.neq
    (IndexBasedIterator.mk (MapView.subscript v i))
    (IndexBasedIterator.mk (MapView.subscript v j))
  = negb (i =? j).
Proof.
  unfold IndexBasedIterator.neq. simpl. unfold MapView.index. simpl. f_equal.
  destruct (Z.eqb_spec i j) as [-> | Hne].
  - apply Z.eqb_refl.
  - apply Z.eqb_neq. lia.
Qed.

Lemma MapView_pre_incr_subscript {K V : Type} (v : MapView.t K V) (i : Z) :
  IndexBasedIterator.pre_incr (IndexBasedIterator.mk (MapView.subscript v i))
  = IndexBasedIterator.mk (MapView.subscript v (i + 1)).
Proof.
  unfold IndexBasedIterator.pre_incr, MapView.subscript. simpl.
  unfold MapView.incrementIndex, MapView.newElement,
    MapView.key_incrementIndex, OptionalVectorValueAccessor.incrementIndex.
  simpl.
  replace (i + MapView.offset_ v + 1) with (i + 1 + MapView.offset_ v) by lia.
  reflexivity.
Qed.

Lemma MapView_visit_indexedFrom {K V : Type} (v : MapView.t K V) (count : nat) :
  forall (i : Z) (fuel : nat),
    (count < fuel)%nat ->
    IndexBasedIterator.visit fuel
      (IndexBasedIterator.mk (MapView.subscript v i))
      (IndexBasedIterator.mk (MapView.subscript v (i + Z.of_nat count)))
    = Some (MapView.indexedFrom v count i).
Proof.
  induction count as [| count IH]; intros i fuel Hfuel;
    (destruct fuel as [| fuel]; [lia |]);
    cbn [IndexBasedIterator.visit MapView.indexedFrom];
    rewrite MapView_neq_subscript.
  - replace (i =? i + Z.of_nat 0) with true
      by (symmetry; apply Z.eqb_eq; lia).
    reflexivity.
  - replace (i =? i + Z.of_nat (S count)) with false
      by (symmetry; apply Z.eqb_neq; lia).
    cbn [negb]. rewrite MapView_pre_incr_subscript.
    replace (i + Z.of_nat (S count)) with (i + 1 + Z.of_nat count) by lia.
    rewrite IH by lia. reflexivity.
Qed.

Lemma MapView_indexedFrom_map {K V : Type} (v : MapView.t K V) (count : nat) :
  forall (i : Z),
    MapView.indexedFrom v count i =
    map (fun k => MapView.newElement (MapView.keyReader_ v)
                    (MapView.valueReader_ v)
                    (MapView.offset_ v + (i + Z.of_nat k)))
        (seq 0 count).
Proof.
  induction count as [| count IH]; intros i; [reflexivity |].
  cbn [MapView.indexedFrom seq map]. rewrite IH, <- seq_shift, map_map.
  f_equal.
  - rewrite MapView_subscript_eq. f_equal. simpl. lia.
  - apply map_ext. intros k. f_equal. lia.
Qed.

(** X9.  For a map view built from [(keyReader, valueReader, offset, size)]
    with [0 <= size]: [size()] is [size]; the indexed loop, the iterator
    loop and the range-for loop all end and visit the same elements, one
    per position [offset], ..., [offset + size - 1] in that order, the key
    accessor and the value accessor of each sitting at that same position.
    The keys seen are therefore the key column's entries at those
    positions as stored: nothing is dropped, merged or reordered. *)
Theorem MapView_access {K V : Type} `{Reader K} `{Reader V}
    (keyReader : K) (valueReader : V) (offset size : vector_size_t) :
  0 <= size < 2 ^ 31 ->
  let v := MapView.mk keyReader valueReader offset size in
  MapView.size v = size /\
  (forall i, MapView.subscript v i
             = MapView.newElement keyReader valueReader (offset + i)) /\
  MapView.indexedLoop v =
    map (fun k => MapView.newElement keyReader valueReader (offset + Z.of_nat k))
        (seq 0 (Z.to_nat size)) /\
  (forall fuel, (Z.to_nat size < fuel)%nat ->
     MapView.iteratorLoop fuel v = Some (MapView.indexedLoop v) /\
     MapView.rangeForLoop fuel v = Some (MapView.indexedLoop v)) /\
  map (fun e => MapView.key_value (MapView.first e)) (MapView.indexedLoop v) =
    map (fun k => read keyReader (offset + Z.of_nat k)) (seq 0 (Z.to_nat size)) /\
  map (fun e => OptionalVectorValueAccessor.has_value (MapView.second e))
      (MapView.indexedLoop v) =
    map (fun k => isSet valueReader (offset + Z.of_nat k)) (seq 0 (Z.to_nat size)).
Proof.
  intros Hsize v.
  assert (Hsz : MapView.size v = size).
  { unfold MapView.size, to_size_t. simpl. apply Z.mod_small. lia. }
  assert (Hloop : MapView.indexedLoop v =
                  map (fun k => MapView.newElement keyReader valueReader
                                  (offset + Z.of_nat k))
                      (seq 0 (Z.to_nat size))).
  { unfold MapView.indexedLoop. rewrite Hsz, MapView_indexedFrom_map.
    reflexivity. }
  split; [exact Hsz |].
  split; [intros i; apply (MapView_subscript_eq v) |].
  split; [exact Hloop |].
  split.
  - intros fuel Hfuel.
    assert (Hit : MapView.iteratorLoop fuel v = Some (MapView.indexedLoop v)).
    { unfold MapView.iteratorLoop, MapView.indexedLoop. rewrite Hsz.
      pose proof (MapView_visit_indexedFrom v (Z.to_nat size) 0 fuel Hfuel) as Hv.
      unfold MapView.begin_, MapView.end_. unfold MapView.subscript in Hv.
      simpl in Hv |- *.
      replace (Z.of_nat (Z.to_nat size) + offset) with (size + offset)
        in Hv by lia.
      exact Hv. }
    split; [exact Hit | exact Hit].
  - rewrite Hloop, !map_map. split; reflexivity.
Qed.

(** Row 2 of the test map, [{10:10, 4:null, 1:4, 10:4, 10:null}], is the
    view at offset 3 of size 5: the key 10 is seen three times. *)
Lemma MapView_access_witness :
  MapView.size (MapView.mk testKeys testValues 3 5) = 5 /\
  MapView.iteratorLoop 6 (MapView.mk testKeys testValues 3 5)
    = Some (MapView.indexedLoop (MapView.mk testKeys testValues 3 5)) /\
  map (fun e => MapView.key_value (MapView.first e))
      (MapView.indexedLoop (MapView.mk testKeys testValues 3 5))
    = [10; 4; 1; 10; 10].
Proof.
  assert (Hsize : 0 <= 5 < 2 ^ 31) by (split; [discriminate | reflexivity]).
  destruct (MapView_access testKeys testValues 3 5 Hsize)
    as (Hsz & _ & _ & Hiter & Hkeys & _).
  split; [exact Hsz | split].
  - apply (Hiter 6%nat). apply Nat.lt_succ_diag_r.
  - rewrite Hkeys. reflexivity.
Defined.

(** ** Optional accessors as optionals *)

Lemma accessor_eq_table {T : Type} `{Reader T}
    (a b : OptionalVectorValueAccessor.t T) :
  OptionalVectorValueAccessor.eq a b =
  Returns (match OptionalVectorValueAccessor.has_value a,
                 OptionalVectorValueAccessor.has_value b with
           | true, true =>
               exec_eqb
                 (read (OptionalVectorValueAccessor.reader_ a)
                       (OptionalVectorValueAccessor.index_ a))
                 (read (OptionalVectorValueAccessor.reader_ b)
                       (OptionalVectorValueAccessor.index_ b))
           | false, false => true
           | _, _ => false
           end).
Proof.
  unfold OptionalVectorValueAccessor.eq.
  destruct (OptionalVectorValueAccessor.has_value a) eqn:Ha;
    destruct (OptionalVectorValueAccessor.has_value b) eqn:Hb; simpl;
    try rewrite (value_of_present a Ha); try rewrite (value_of_present b Hb);
    reflexivity.
Qed.

Lemma to_optional_table {T : Type} `{Reader T}
    (a : OptionalVectorValueAccessor.t T) :
  OptionalVectorValueAccessor.to_optional a =
  Returns (if OptionalVectorValueAccessor.has_value a
           then Some (read (OptionalVectorValueAccessor.reader_ a)
                           (OptionalVectorValueAccessor.index_ a))
           else None).
Proof.
  unfold OptionalVectorValueAccessor.to_optional.
  destruct (OptionalVectorValueAccessor.has_value a) eqn:Ha; simpl;
    [rewrite (value_of_present a Ha) |]; reflexivity.
Qed.

(** X10.  Where [operator==] of the element type is reflexive, symmetric
    and transitive, so is [operator==] of optional accessors, and it never
    trips the check in [value()]: an accessor equals itself, [a == b] and
    [b == a] agree, and equality chains. *)
Theorem accessor_eq_equivalence {T : Type} `{Reader T} :
  (forall x, exec_eqb x x = true) ->
  (forall x y, exec_eqb x y = exec_eqb y x) ->
  (forall x y z, exec_eqb x y = true -> exec_eqb y z = true ->
                 exec_eqb x z = true) ->
  (forall a : OptionalVectorValueAccessor.t T,
     OptionalVectorValueAccessor.eq a a = Returns true) /\
  (forall a b : OptionalVectorValueAccessor.t T,
     OptionalVectorValueAccessor.eq a b = OptionalVectorValueAccessor.eq b a) /\
  (forall a b c : OptionalVectorValueAccessor.t T,
     OptionalVectorValueAccessor.eq a b = Returns true ->
     OptionalVectorValueAccessor.eq b c = Returns true ->
     OptionalVectorValueAccessor.eq a c = Returns true).
Proof.
  intros Hrefl Hsym Htrans. split; [| split].
  - intros a. rewrite accessor_eq_table.
    destruct (OptionalVectorValueAccessor.has_value a);
      [rewrite Hrefl |]; reflexivity.
  - intros a b. rewrite !accessor_eq_table.
    destruct (OptionalVectorValueAccessor.has_value a),
             (OptionalVectorValueAccessor.has_value b);
      try reflexivity.
    rewrite Hsym. reflexivity.
  - intros a b c. rewrite !accessor_eq_table.
    destruct (OptionalVectorValueAccessor.has_value a),
             (OptionalVectorValueAccessor.has_value b),
             (OptionalVectorValueAccessor.has_value c);
      intros Hab Hbc; try discriminate; try reflexivity.
    injection Hab as Hab. injection Hbc as Hbc.
    rewrite (Htrans _ _ _ Hab Hbc). reflexivity.
Qed.

(** Accessors over 64-bit integer columns, whose [==] is integer
    equality. *)
Lemma accessor_eq_equivalence_witness :
  (forall a : OptionalVectorValueAccessor.t DecodedVector,
     OptionalVectorValueAccessor.eq a a = Returns true) /\
  (forall a b : OptionalVectorValueAccessor.t DecodedVector,
     OptionalVectorValueAccessor.eq a b = OptionalVectorValueAccessor.eq b a) /\
  (forall a b c : OptionalVectorValueAccessor.t DecodedVector,
     OptionalVectorValueAccessor.eq a b = Returns true ->
     OptionalVectorValueAccessor.eq b c = Returns true ->
     OptionalVectorValueAccessor.eq a c = Returns true).
Proof.
  apply (@accessor_eq_equivalence DecodedVector ScalarVectorReader).
  - exact Z.eqb_refl.
  - exact Z.eqb_sym.
  - intros x y z Hxy Hyz. apply Z.eqb_eq in Hxy. apply Z.eqb_eq in Hyz.
    apply Z.eqb_eq. congruence.
Defined.

(** X11.  Converting an optional accessor to [std::optional] never fails:
    it yields the value when the accessor has one and the empty optional
    otherwise.  Comparing two accessors gives what comparing the two
    converted optionals gives, and so does comparing the converted left
    operand with the right accessor, in either operand order. *)
Theorem to_optional_agrees {T : Type} `{Reader T}
    (a b : OptionalVectorValueAccessor.t T) :
  exists oa ob,
    OptionalVectorValueAccessor.to_optional a = Returns oa /\
    OptionalVectorValueAccessor.to_optional b = Returns ob /\
    (oa = None <-> OptionalVectorValueAccessor.has_value a = false) /\
    (forall x, oa = Some x -> OptionalVectorValueAccessor.value a = Returns x) /\
    OptionalVectorValueAccessor.eq a b = Returns (optional_eqb exec_eqb oa ob) /\
    OptionalVectorValueAccessor.optional_eq exec_eqb oa b
      = OptionalVectorValueAccessor.eq a b /\
    OptionalVectorValueAccessor.eq_optional exec_eqb b oa
      = OptionalVectorValueAccessor.eq a b.
Proof.
  rewrite !to_optional_table, accessor_eq_table.
  unfold OptionalVectorValueAccessor.eq_optional,
    OptionalVectorValueAccessor.optional_eq.
  destruct (OptionalVectorValueAccessor.has_value a) eqn:Ha;
    destruct (OptionalVectorValueAccessor.has_value b) eqn:Hb;
    eexists; eexists;
    (split; [reflexivity |]); (split; [reflexivity |]);
    simpl; rewrite ?Hb; simpl;
    try rewrite (value_of_present a Ha); try rewrite (value_of_present b Hb);
    simpl; repeat split; intros; try discriminate; try congruence.
Qed.

(** ** Map view elements *)

(** X12.  Equality of two map view elements never fails and compares
    contents only: it is [true] exactly when the two keys are equal and the
    two values are equal as optionals.  The positions of the elements play
    no part, whereas two iterators are equal exactly when their elements
    sit at the same position. *)
Theorem Element_eq_by_content {K V : Type} `{Reader K} `{Reader V}
    (e1 e2 : @MapView.Element K V) :
  (exists o1 o2,
     OptionalVectorValueAccessor.to_optional (MapView.second e1) = Returns o1 /\
     OptionalVectorValueAccessor.to_optional (MapView.second e2) = Returns o2 /\
     MapView.element_eq e1 e2 =
       Returns (exec_eqb (MapView.key_value (MapView.first e2))
                         (MapView.key_value (MapView.first e1))
                && optional_eqb exec_eqb o1 o2)) /\
  (forall i1 i2,
     MapView.element_eq
       (MapView.mkElement (MapView.first e1) (MapView.second e1) i1)
       (MapView.mkElement (MapView.first e2) (MapView.second e2) i2)
     = MapView.element_eq e1 e2) /\
  IndexBasedIterator.eq (IndexBasedIterator.mk e1) (IndexBasedIterator.mk e2)
    = (MapView.index e1 =? MapView.index e2).
Proof.
  split; [| split; reflexivity].
  unfold MapView.element_eq, MapView.key_eq.
  rewrite !to_optional_table, accessor_eq_table.
  eexists; eexists. split; [reflexivity | split; [reflexivity |]].
  unfold andThen.
  destruct (exec_eqb (MapView.key_value (MapView.first e2))
                     (MapView.key_value (MapView.first e1))); simpl;
    [| reflexivity].
  destruct (OptionalVectorValueAccessor.has_value (MapView.second e1)),
           (OptionalVectorValueAccessor.has_value (MapView.second e2));
    reflexivity.
Qed.

(* ================================================================== *)
(** * Readers and the views they hand out *)

Lemma existsFrom_existsb (f : vector_size_t -> bool) (count : nat) :
  forall start,
    existsFrom f count start
    = existsb f (map (fun k => start + Z.of_nat k) (seq 0 count)).
Proof.
  induction count as [| count IH]; intros start; [reflexivity |].
  cbn [existsFrom seq map existsb].
  replace (start + Z.of_nat 0) with start by lia. f_equal.
  rewrite IH, <- seq_shift, map_map. f_equal.
  apply map_ext. intros k. lia.
Qed.

Lemma existsb_map {A B : Type} (f : B -> bool) (g : A -> B) (l : list A) :
  existsb f (map g l) = existsb (fun x => f (g x)) l.
Proof.
  induction l as [| x rest IH]; simpl; [reflexivity | rewrite IH; reflexivity].
Qed.

Lemma ArrayView_indexedFrom_positions {T : Type} (v : ArrayView.t T) (count : nat) :
  forall i,
    map OptionalVectorValueAccessor.index (ArrayView.indexedFrom v count i)
    = map (fun k => ArrayView.offset_ v + i + Z.of_nat k) (seq 0 count).
Proof.
  induction count as [| count IH]; intros i; [reflexivity |].
  cbn [ArrayView.indexedFrom seq map]. rewrite IH, <- seq_shift, map_map.
  f_equal.
  - unfold ArrayView.subscript, OptionalVectorValueAccessor.index. simpl. lia.
  - apply map_ext. intros k. lia.
Qed.

Lemma MapView_indexedFrom_positions {K V : Type} (v : MapView.t K V) (count : nat) :
  forall i,
    map (fun e => MapView.key_index (MapView.first e))
        (MapView.indexedFrom v count i)
    = map (fun k => MapView.offset_ v + i + Z.of_nat k) (seq 0 count) /\
    map (fun e => OptionalVectorValueAccessor.index (MapView.second e))
        (MapView.indexedFrom v count i)
    = map (fun k => MapView.offset_ v + i + Z.of_nat k) (seq 0 count).
Proof.
  induction count as [| count IH]; intros i; [split; reflexivity |].
  cbn [MapView.indexedFrom seq map]. destruct (IH (i + 1)) as [IHk IHv].
  rewrite IHk, IHv, <- seq_shift, map_map.
  split; (f_equal;
          [unfold MapView.subscript, MapView.key_index,
             OptionalVectorValueAccessor.index; simpl; lia
          | apply map_ext; intros k; lia]).
Qed.

Lemma existsInRange_positions (f : vector_size_t -> bool)
    (offset length : vector_size_t) :
  existsInRange f offset (offset + length)
  = existsb f (map (fun k => offset + 0 + Z.of_nat k) (seq 0 (Z.to_nat length))).
Proof.
  unfold existsInRange.
  replace (offset + length - offset) with length by lia.
  rewrite existsFrom_existsb. f_equal. apply map_ext. intros k. lia.
Qed.

(** X13.  The view an Array reader hands out for row [i] covers exactly the
    window [containsNull(i)] scans.  After the setup phase, provided every
    decoded source in the tree reports [mayHaveNulls()] whenever one of
    its rows is null and the decoded source of every Row reader in it
    answers [mayHaveNullsRecursive()] with [false] only when its own
    [mayHaveNulls()] and the flag of every field reader are [false], and
    for a row whose stored length is an element count,
    [reader[i]] is an array view of that size whose indexed loop visits the
    positions [offsets[index(i)]], ..., one per element, and
    [containsNull(i)] is [true] exactly when the row is null or the element
    reader holds a null at one of the visited positions. *)
Theorem Array_view_covers_window d offsets lengths c vm r' :
  sourcesSound (ArrayReader d offsets lengths c vm) ->
  setChildrenMayHaveNulls (ArrayReader d offsets lengths c vm) = Returns r' ->
  forall i,
    0 <= lengths (index d i) < 2 ^ 31 ->
    exists view,
      subscript r' i = ArrayViewOf view /\
      ArrayView.size view = lengths (index d i) /\
      map OptionalVectorValueAccessor.index (ArrayView.indexedLoop view)
        = map (fun k => offsets (index d i) + Z.of_nat k)
              (seq 0 (Z.to_nat (lengths (index d i)))) /\
      containsNull r' i =
        Returns (isNullAt d i
                 || existsb (fun e => hasNull c (OptionalVectorValueAccessor.index e))
                      (ArrayView.indexedLoop view)).
Proof.
  intros Hs E i Hlen.
  pose proof (containsNull_hasNull _ Hs _ E i) as Hcn.
  apply setChildrenMayHaveNulls_Array_inv in E.
  destruct E as (c' & vf & _ & _ & ->).
  eexists. split; [reflexivity |].
  assert (Hsz : to_size_t (lengths (index d i)) = lengths (index d i)).
  { unfold to_size_t. apply Z.mod_small. lia. }
  split; [exact Hsz |].
  unfold ArrayView.indexedLoop, ArrayView.size. cbn [ArrayView.size_].
  rewrite Hsz. split.
  - rewrite ArrayView_indexedFrom_positions. apply map_ext. intros k.
    cbn [ArrayView.offset_]. lia.
  - rewrite Hcn. cbn [hasNull]. cbv zeta. do 2 f_equal.
    rewrite existsInRange_positions.
    rewrite <- (existsb_map (hasNull c) OptionalVectorValueAccessor.index).
    rewrite ArrayView_indexedFrom_positions. reflexivity.
Qed.

(** The array column [[], [7, 8], [null]]: the view of row 1 has size 2 and
    visits positions 0 and 1 of the element column. *)
Lemma Array_view_covers_window_witness :
  exists view,
    subscript (afterSetup testArrayReader) 1 = ArrayViewOf view /\
    ArrayView.size view = 2 /\
    map OptionalVectorValueAccessor.index (ArrayView.indexedLoop view) = [0; 1] /\
    containsNull (afterSetup testArrayReader) 1 =
      Returns (isNullAt testArrayRows 1
               || existsb (fun e => hasNull (ScalarReader testElements)
                                      (OptionalVectorValueAccessor.index e))
                    (ArrayView.indexedLoop view)).
Proof.
  assert (Hs : sourcesSound testArrayReader).
  { split; apply flatDecoded_sound. }
  assert (Hlen : 0 <= rawBuffer [0; 2; 1] (index testArrayRows 1) < 2 ^ 31).
  { split; [discriminate | reflexivity]. }
  exact (Array_view_covers_window testArrayRows
           (rawBuffer [0; 0; 2]) (rawBuffer [0; 2; 1])
           (ScalarReader testElements) None
           (afterSetup testArrayReader) Hs eq_refl 1 Hlen).
Defined.

(** X14.  The view a Map reader hands out for row [i] covers exactly the
    window [containsNull(i)] scans.  After the setup phase, provided every
    decoded source in the tree reports [mayHaveNulls()] whenever one of
    its rows is null and the decoded source of every Row reader in it
    answers [mayHaveNullsRecursive()] with [false] only when its own
    [mayHaveNulls()] and the flag of every field reader are [false], and
    for a row whose stored length is an entry count,
    [reader[i]] is a map view of that size whose elements sit at the
    positions [offsets[index(i)]], ..., one per entry, with key and value
    accessor at the same position, and [containsNull(i)] is [true] exactly
    when the row is null, or the key reader holds a null at the position of
    some element's key, or the value reader at that of some element's
    value. *)
Theorem Map_view_covers_window d offsets lengths k v km vm r' :
  sourcesSound (MapReader d offsets lengths k v km vm) ->
  setChildrenMayHaveNulls (MapReader d offsets lengths k v km vm) = Returns r' ->
  forall i,
    0 <= lengths (index d i) < 2 ^ 31 ->
    exists view,
      subscript r' i = MapViewOf view /\
      MapView.size view = lengths (index d i) /\
      map (fun e => MapView.key_index (MapView.first e))
          (MapView.indexedLoop view)
        = map (fun n => offsets (index d i) + Z.of_nat n)
              (seq 0 (Z.to_nat (lengths (index d i)))) /\
      map (fun e => OptionalVectorValueAccessor.index (MapView.second e))
          (MapView.indexedLoop view)
        = map (fun n => offsets (index d i) + Z.of_nat n)
              (seq 0 (Z.to_nat (lengths (index d i)))) /\
      containsNull r' i =
        Returns (isNullAt d i
                 || existsb (fun e => hasNull k (MapView.key_index (MapView.first e)))
                      (MapView.indexedLoop view)
                 || existsb (fun e => hasNull v
                                        (OptionalVectorValueAccessor.index
                                           (MapView.second e)))
                      (MapView.indexedLoop view)).
Proof.
  intros Hs E i Hlen.
  pose proof (containsNull_hasNull _ Hs _ E i) as Hcn.
  apply setChildrenMayHaveNulls_Map_inv in E.
  destruct E as (k' & v' & kf & vf & _ & _ & _ & _ & ->).
  eexists. split; [reflexivity |].
  assert (Hsz : to_size_t (lengths (index d i)) = lengths (index d i)).
  { unfold to_size_t. apply Z.mod_small. lia. }
  split; [exact Hsz |].
  unfold MapView.indexedLoop, MapView.size. cbn [MapView.size_].
  rewrite Hsz.
  match goal with
  | |- context [MapView.indexedFrom ?view ?n 0] =>
      destruct (MapView_indexedFrom_positions view n 0) as [Hk Hv]
  end.
  cbn [MapView.offset_] in Hk, Hv.
  split; [rewrite Hk; apply map_ext; intros n; lia |].
  split; [rewrite Hv; apply map_ext; intros n; lia |].
  rewrite Hcn. cbn [hasNull]. cbv zeta. f_equal.
  rewrite !existsInRange_positions.
  rewrite <- (existsb_map (hasNull k)
                (fun e => MapView.key_index (MapView.first e))).
  rewrite <- (existsb_map (hasNull v)
                (fun e => OptionalVectorValueAccessor.index (MapView.second e))).
  rewrite Hk, Hv. reflexivity.
Qed.

(** The map column of the tests: the view of row 1 has size 3 and its
    elements sit at positions 0, 1 and 2 of the key and value columns. *)
Lemma Map_view_covers_window_witness :
  exists view,
    subscript (afterSetup testMapReader) 1 = MapViewOf view /\
    MapView.size view = 3 /\
    map (fun e => MapView.key_index (MapView.first e))
        (MapView.indexedLoop view) = [0; 1; 2] /\
    map (fun e => OptionalVectorValueAccessor.index (MapView.second e))
        (MapView.indexedLoop view) = [0; 1; 2] /\
    containsNull (afterSetup testMapReader) 1 =
      Returns (isNullAt testMapRows 1
               || existsb (fun e => hasNull (ScalarReader testKeys)
                                      (MapView.key_index (MapView.first e)))
                    (MapView.indexedLoop view)
               || existsb (fun e => hasNull (ScalarReader testValues)
                                      (OptionalVectorValueAccessor.index
                                         (MapView.second e)))
                    (MapView.indexedLoop view)).
Proof.
  assert (Hs : sourcesSound testMapReader).
  { split; [| split]; apply flatDecoded_sound. }
  assert (Hlen : 0 <= rawBuffer [0; 3; 5] (index testMapRows 1) < 2 ^ 31).
  { split; [discriminate | reflexivity]. }
  exact (Map_view_covers_window testMapRows
           (rawBuffer [0; 0; 3]) (rawBuffer [0; 3; 5])
           (ScalarReader testKeys) (ScalarReader testValues) None None
           (afterSetup testMapReader) Hs eq_refl 1 Hlen).
Defined.

(* ================================================================== *)
(** * Walking between two iterators *)

Lemma visit_walk {E : Type} `{Indexed E}
    (Hstep : forall e : E, index_of (increment e) = index_of e + 1)
    (last : IndexBasedIterator.t E) (n : nat) :
  forall (e : E) (fuel : nat),
    index_of e + Z.of_nat n = index_of (IndexBasedIterator.element_ last) ->
    (n < fuel)%nat ->
    IndexBasedIterator.visit fuel (IndexBasedIterator.mk e) last
    = Some (map (fun k => Nat.iter k increment e) (seq 0 n)).
Proof.
  induction n as [| n IH]; intros e fuel Hidx Hfuel;
    (destruct fuel as [| fuel]; [lia |]);
    cbn [IndexBasedIterator.visit]; unfold IndexBasedIterator.neq;
    cbn [IndexBasedIterator.element_].
  - replace (index_of e =? index_of (IndexBasedIterator.element_ last))
      with true by (symmetry; apply Z.eqb_eq; lia).
    reflexivity.
  - replace (index_of e =? index_of (IndexBasedIterator.element_ last))
      with false by (symmetry; apply Z.eqb_neq; lia).
    cbn [negb]. unfold IndexBasedIterator.pre_incr, IndexBasedIterator.deref.
    cbn [IndexBasedIterator.element_].
    rewrite (IH (increment e) fuel) by (rewrite ?Hstep; lia).
    cbn [option_map seq map Nat.iter]. do 2 f_equal.
    rewrite <- seq_shift, map_map. apply map_ext. intros k.
    rewrite Nat.iter_succ_r. reflexivity.
Qed.

Lemma iter_increment_index {E : Type} `{Indexed E}
    (Hstep : forall e : E, index_of (increment e) = index_of e + 1)
    (e : E) (k : nat) :
  index_of (Nat.iter k increment e) = index_of e + Z.of_nat k.
Proof.
  induction k as [| k IH]; [simpl; lia |].
  rewrite Nat.iter_succ, Hstep, IH. lia.
Qed.

(** X15.  For any element type whose [incrementIndex()] moves [index()] up
    by one, the loop [for (it = first; it != last; ++it)] between two
    iterators with [first] not past [last] ends after exactly
    [last.index() - first.index()] steps: it visits [first]'s element
    advanced 0, 1, ... times, at consecutive indices from [first]'s up to,
    but not including, [last]'s, and only the index of [last] matters. *)
Theorem iterator_walk {E : Type} `{Indexed E}
    (first last : IndexBasedIterator.t E) :
  (forall e : E, index_of (increment e) = index_of e + 1) ->
  index_of (IndexBasedIterator.element_ first)
    <= index_of (IndexBasedIterator.element_ last) ->
  let n := Z.to_nat (index_of (IndexBasedIterator.element_ last)
                     - index_of (IndexBasedIterator.element_ first)) in
  let visited := map (fun k => Nat.iter k increment
                                 (IndexBasedIterator.element_ first))
                     (seq 0 n) in
  (forall fuel, (n < fuel)%nat ->
     IndexBasedIterator.visit fuel first last = Some visited) /\
  List.length visited = n /\
  map index_of visited =
    map (fun k => index_of (IndexBasedIterator.element_ first) + Z.of_nat k)
        (seq 0 n).
Proof.
  intros Hstep Hle n visited. split; [| split].
  - intros fuel Hfuel. destruct first as [e]. apply visit_walk.
    + exact Hstep.
    + simpl in *. subst n. lia.
    + exact Hfuel.
  - unfold visited. rewrite length_map, length_seq. reflexivity.
  - unfold visited. rewrite map_map. apply map_ext. intros k.
    apply iter_increment_index. exact Hstep.
Qed.

(** Map view elements over the columns of the test map, from position 4 to
    position 6: two elements are visited, at positions 4 and 5. *)
Lemma iterator_walk_witness :
  IndexBasedIterator.visit 3
    (IndexBasedIterator.mk (MapView.newElement testKeys testValues 4))
    (IndexBasedIterator.mk (MapView.newElement testKeys testValues 6))
  = Some [MapView.newElement testKeys testValues 4;
          MapView.newElement testKeys testValues 5].
Proof.
  assert (Hstep : forall e : @MapView.Element DecodedVector DecodedVector,
            index_of (increment e) = index_of e + 1) by reflexivity.
  assert (Hle : index_of (MapView.newElement testKeys testValues 4)
                <= index_of (MapView.newElement testKeys testValues 6))
    by discriminate.
  destruct (iterator_walk
              (IndexBasedIterator.mk (MapView.newElement testKeys testValues 4))
              (IndexBasedIterator.mk (MapView.newElement testKeys testValues 6))
              Hstep Hle) as (Hvisit & _ & _).
  apply (Hvisit 3%nat). apply Nat.lt_succ_diag_r.
Defined.
